(** * s3-compare: the bucket comparison of [main.py], embedded and verified

    The program lists two S3 buckets, classifies every key of the union of
    the two listings (extra, missing, size mismatch, ETag mismatch, content
    mismatch, or matched) and exits with status 0 or 1.

    The embedding follows [main.py] function by function.  The S3 service
    and [hashlib.md5] are outside the repository: a client is a record of
    the answers the service gives, and the digest is a section variable.
    Logging is the only effect left out; no result depends on it. *)

From Stdlib Require Import ZArith Ascii.
From stdpp Require Import gmap strings list fin_maps fin_sets sorting.

Open Scope string_scope.
Set Warnings "-clear-no-such-hyp".  (* raised inside stdpp's solvers *)

(** ** Data model *)

Definition bytes := list Byte.byte.

(** A Python exception, identified by its message. *)
Definition exn := string.

(** An element of [page['Contents']] as [list_objects_v2] returns it. *)
Record S3Object := {
  obj_Key : string;
  obj_Size : Z;
  obj_ETag : string;
  obj_LastModified : Z
}.

(** The dictionary [{'Size': .., 'ETag': .., 'LastModified': ..}] stored
    per key by [get_bucket_objects]. *)
Record ObjectMeta := {
  Size : Z;
  ETag : string;
  LastModified : Z
}.

#[global] Instance ObjectMeta_eq_dec : EqDecision ObjectMeta.
Proof. solve_decision. Defined.

(** A page of the listing; the field ['Contents'] may be absent. *)
Record Page := { Contents : option (list S3Object) }.

(** The iterator [paginator.paginate(Bucket=..)]: it yields pages, then
    stops, or raises at some point. *)
Inductive Paginator :=
| StopIteration
| Yield (page : Page) (rest : Paginator)
| Raise (e : exn).

(** [response['Body']]: the answers of the successive [read(4096)] calls.
    Once the answers are exhausted the stream is at its end and [read]
    returns [b'']. *)
Inductive ReadResult :=
| ReadOk (chunk : bytes)
| ReadRaise (e : exn).

Definition StreamingBody := list ReadResult.

(** A boto3 S3 client, as far as [main.py] uses it.  The service may
    answer a repeated request differently, so both operations take the
    number of the attempt: [paginate s3 n bucket] is the iterator that the
    attempt number [n] to list [bucket] gets, [get_object s3 n bucket key]
    the response to the attempt number [n] to open [key].  [main.py] makes
    one attempt, number 0, per listing and per object. *)
Record S3Client := {
  paginate : nat → string → Paginator;
  get_object : nat → string → string → exn + StreamingBody
}.

(** The attributes set by [S3BucketComparer.__init__]. *)
Record S3BucketComparer := {
  source_bucket : string;
  target_bucket : string;
  source_s3 : S3Client;
  target_s3 : S3Client;
  ignore_etags : bool;
  compare_hashes : bool
}.

(** ** [defaultdict(set)] and [defaultdict(int)] *)

(** [d[cat]]: the set stored under [cat], the empty set when there is none. *)
Definition dd_get (d : gmap string (gset string)) (cat : string) : gset string :=
  default ∅ (d !! cat).

(** [d[cat].add(key)]. *)
Definition dd_add (cat key : string) (d : gmap string (gset string))
  : gmap string (gset string) :=
  <[cat := dd_get d cat ∪ {[key]}]> d.

(** [stats[name] += 1]. *)
Definition dd_incr (name : string) (stats : gmap string nat) : gmap string nat :=
  <[name := S (default 0 (stats !! name))]> stats.

(** Every stored set has a member: the property of a [defaultdict(set)]
    whose entries are only created by [add]. *)
Definition inhabited_values (d : gmap string (gset string)) : Prop :=
  ∀ cat keys, d !! cat = Some keys → keys ≠ ∅.

(** ** [get_bucket_objects] *)

(** [objects[obj['Key']] = {...}] *)
Definition store_object (objects : gmap string ObjectMeta) (obj : S3Object)
  : gmap string ObjectMeta :=
  <[obj_Key obj := {| Size := obj_Size obj; ETag := obj_ETag obj;
                      LastModified := obj_LastModified obj |}]> objects.

(** The [for page in ...] loop inside the [try]; an exception is logged and
    raised again, so the dictionary built so far is lost. *)
Fixpoint drain_pages (it : Paginator) (objects : gmap string ObjectMeta)
  : exn + gmap string ObjectMeta :=
  match it with
  | StopIteration => inr objects
  | Raise e => inl e
  | Yield page rest =>
      match Contents page with
      | Some contents => drain_pages rest (foldl store_object objects contents)
      | None => drain_pages rest objects
      end
  end.

Definition get_bucket_objects (s3_client : S3Client) (bucket_name : string)
  : exn + gmap string ObjectMeta :=
  drain_pages (paginate s3_client 0 bucket_name) ∅.

(** ** What a listing holds *)

(** The exception the iterator raises, if it raises. *)
Fixpoint raised (it : Paginator) : option exn :=
  match it with
  | StopIteration => None
  | Raise e => Some e
  | Yield _ rest => raised rest
  end.

(** The pages the iterator yields. *)
Fixpoint pages (it : Paginator) : list Page :=
  match it with
  | Yield page rest => page :: pages rest
  | _ => []
  end.

(** The objects on the pages, in the order of the listing. *)
Definition listed (it : Paginator) : list S3Object :=
  concat ((λ page, default [] (Contents page)) <$> pages it).

Definition metadata (obj : S3Object) : ObjectMeta :=
  {| Size := obj_Size obj; ETag := obj_ETag obj;
     LastModified := obj_LastModified obj |}.

(** The snapshot a listing describes: its objects stored in order. *)
Definition snapshot_of (it : Paginator) : gmap string ObjectMeta :=
  foldl store_object ∅ (listed it).

(** ** Concrete buckets, for running the definitions *)

Definition object (key : string) (size : Z) (etag : string) : S3Object :=
  {| obj_Key := key; obj_Size := size; obj_ETag := etag; obj_LastModified := 0 |}.

(** A bucket listed in two pages, whose objects can be read. *)
Definition source_listing : Paginator :=
  Yield {| Contents := Some [object "a" 10 "x"] |}
    (Yield {| Contents := Some [object "b" 5 "y"] |} StopIteration).

Definition target_listing : Paginator :=
  Yield {| Contents := Some [object "a" 10 "x"; object "c" 1 "z"] |} StopIteration.

Definition healthy_source : S3Client :=
  {| paginate := λ _ _, source_listing;
     get_object := λ _ _ _, inr [ReadOk [Byte.x68; Byte.x69]] |}.

Definition healthy_target : S3Client :=
  {| paginate := λ _ _, target_listing;
     get_object := λ _ _ _, inr [ReadOk [Byte.x68]; ReadOk [Byte.x69]; ReadOk []] |}.

(** The same bucket, but the first read of every object body breaks off;
    a second attempt would go through. *)
Definition broken_reads : S3Client :=
  {| paginate := λ _ _, source_listing;
     get_object := λ attempt _ _,
       match attempt with
       | 0 => inr [ReadOk [Byte.x68]; ReadRaise "connection reset"]
       | _ => inr [ReadOk [Byte.x68; Byte.x69]]
       end |}.

(** No object can be opened at all. *)
Definition no_access : S3Client :=
  {| paginate := λ _ _, target_listing;
     get_object := λ _ _ _, inl "AccessDenied" |}.

(** The first listing raises after its first page; a second attempt would
    list the whole bucket. *)
Definition broken_listing : S3Client :=
  {| paginate := λ attempt _,
       match attempt with
       | 0 => Yield {| Contents := Some [object "a" 10 "x"] |}
                (Raise "ExpiredToken")
       | _ => source_listing
       end;
     get_object := λ _ _ _, inr [ReadOk [Byte.x68; Byte.x69]] |}.

(** An empty bucket: one page without ['Contents']. *)
Definition empty_bucket : S3Client :=
  {| paginate := λ _ _, Yield {| Contents := None |} StopIteration;
     get_object := λ _ _ _, inl "NoSuchKey" |}.

Definition comparer_of (source target : S3Client) (ignore hashes : bool)
  : S3BucketComparer :=
  {| source_bucket := "src"; target_bucket := "dst";
     source_s3 := source; target_s3 := target;
     ignore_etags := ignore; compare_hashes := hashes |}.

(** Source bodies break off, target bodies are read to the end. *)
Definition unreadable_source : S3BucketComparer :=
  comparer_of broken_reads healthy_target false true.

(** Neither side delivers a digest. *)
Definition unreadable_both : S3BucketComparer :=
  comparer_of broken_reads no_access false true.

Definition readable_both (ignore hashes : bool) : S3BucketComparer :=
  comparer_of healthy_source healthy_target ignore hashes.

(** One key, equal sizes, different ETags. *)
Definition retagged_source : gmap string ObjectMeta :=
  {[ "a" := {| Size := 10; ETag := "x"; LastModified := 0 |} ]}.

Definition retagged_target : gmap string ObjectMeta :=
  {[ "a" := {| Size := 10; ETag := "y"; LastModified := 7 |} ]}.

(** The bucket of [healthy_source] listed in one page after a page
    without ['Contents']; its bodies end without an empty chunk. *)
Definition single_page_source : S3Client :=
  {| paginate := λ _ _,
       Yield {| Contents := None |}
         (Yield {| Contents := Some [object "a" 10 "x"; object "b" 5 "y"] |}
            StopIteration);
     get_object := λ _ _ _, inr [ReadOk [Byte.x68]; ReadOk [Byte.x69]] |}.

(** [retagged_source] listed at another time. *)
Definition retagged_source_later : gmap string ObjectMeta :=
  {[ "a" := {| Size := 10; ETag := "x"; LastModified := 99 |} ]}.

(** A stand-in for [hashlib.md5] on the concrete buckets: the bytes
    themselves. *)
Definition plain_digest (data : bytes) : string :=
  String.string_of_list_byte data.

Section Comparer.

(** [hashlib.md5]: the hexadecimal digest of the bytes fed to [update],
    in order. *)
Variable md5 : bytes → string.

(** ** [_calculate_md5] *)

(** [for chunk in iter(lambda: response['Body'].read(4096), b'')]: the loop
    ends at the first empty chunk; [consumed] is what [update] received. *)
Fixpoint read_chunks (body : StreamingBody) (consumed : bytes) : option string :=
  match body with
  | [] => Some (md5 consumed)
  | ReadRaise _ :: _ => None
  | ReadOk [] :: _ => Some (md5 consumed)
  | ReadOk chunk :: rest => read_chunks rest (consumed ++ chunk)%list
  end.

(** Every exception is caught and turned into [None]. *)
Definition _calculate_md5 (s3_client : S3Client) (bucket key : string)
  : option string :=
  match get_object s3_client 0 bucket key with
  | inl _ => None
  | inr body => read_chunks body []
  end.

(** ** [_compare_file_hashes] *)

Definition _compare_file_hashes (self : S3BucketComparer) (key : string) : bool :=
  let source_hash := _calculate_md5 (source_s3 self) (source_bucket self) key in
  let target_hash := _calculate_md5 (target_s3 self) (target_bucket self) key in
  if bool_decide (source_hash = None) || bool_decide (target_hash = None)
  then false
  else bool_decide (source_hash = target_hash).

(** ** [compare_buckets] *)

(** The body of [for key in all_keys], on the pair [(differences, stats)]. *)
Definition compare_key (self : S3BucketComparer)
    (source_objects target_objects : gmap string ObjectMeta)
    (acc : gmap string (gset string) * gmap string nat) (key : string)
  : gmap string (gset string) * gmap string nat :=
  let '(differences, stats) := acc in
  match source_objects !! key with
  | None => (dd_add "extra_in_target" key differences, stats)
  | Some source_obj =>
      match target_objects !! key with
      | None => (dd_add "missing_in_target" key differences, stats)
      | Some target_obj =>
          if bool_decide (Size source_obj ≠ Size target_obj)
          then (dd_add "size_mismatch" key differences, stats)
          else if negb (ignore_etags self)
                  && bool_decide (ETag source_obj ≠ ETag target_obj)
          then (dd_add "etag_mismatch" key differences, stats)
          else if compare_hashes self && negb (_compare_file_hashes self key)
          then (dd_add "content_mismatch" key differences, stats)
          else (differences, dd_incr "matched_files" stats)
      end
  end.

(** [all_keys = set(source_objects.keys()) | set(target_objects.keys())] *)
Definition all_keys (source_objects target_objects : gmap string ObjectMeta)
  : gset string :=
  dom source_objects ∪ dom target_objects.

(** The statements of [compare_buckets] after the two listings.  The loop
    runs over the keys in the order [iteration] gives them. *)
Definition compare_objects_in (iteration : list string) (self : S3BucketComparer)
    (source_objects target_objects : gmap string ObjectMeta)
  : gmap string (gset string) * gmap string nat :=
  let stats :=
    <["matched_files" := 0]>
      (<["total_files" := size (all_keys source_objects target_objects)]> ∅) in
  foldl (compare_key self source_objects target_objects) (∅, stats) iteration.

Definition compare_objects (self : S3BucketComparer)
    (source_objects target_objects : gmap string ObjectMeta)
  : gmap string (gset string) * gmap string nat :=
  compare_objects_in (elements (all_keys source_objects target_objects))
    self source_objects target_objects.

Definition compare_buckets (self : S3BucketComparer)
  : exn + (gmap string (gset string) * gmap string nat) :=
  match get_bucket_objects (source_s3 self) (source_bucket self) with
  | inl e => inl e
  | inr source_objects =>
      match get_bucket_objects (target_s3 self) (target_bucket self) with
      | inl e => inl e
      | inr target_objects =>
          inr (compare_objects self source_objects target_objects)
      end
  end.

(** ** The outcome categories of the specification *)

Inductive Outcome :=
| MissingInTarget
| ExtraInTarget
| SizeMismatch
| IntegrityTagMismatch
| ContentMismatch
| Matched.

#[global] Instance Outcome_eq_dec : EqDecision Outcome.
Proof. solve_decision. Defined.

(** The key of [differences] under which [compare_buckets] files an outcome;
    matched keys are only counted. *)
Definition category (o : Outcome) : option string :=
  match o with
  | MissingInTarget => Some "missing_in_target"
  | ExtraInTarget => Some "extra_in_target"
  | SizeMismatch => Some "size_mismatch"
  | IntegrityTagMismatch => Some "etag_mismatch"
  | ContentMismatch => Some "content_mismatch"
  | Matched => None
  end.

(** The outcome a report gives to a key: membership in the set of the
    category, and for [Matched] membership in none of the sets. *)
Definition assigned (differences : gmap string (gset string)) (key : string)
    (o : Outcome) : Prop :=
  match category o with
  | Some cat => key ∈ dd_get differences cat
  | None => ∀ cat, key ∉ dd_get differences cat
  end.

(** Exchange of the roles of source and target. *)
Definition swap_outcome (o : Outcome) : Outcome :=
  match o with
  | MissingInTarget => ExtraInTarget
  | ExtraInTarget => MissingInTarget
  | _ => o
  end.

Definition swap_comparer (self : S3BucketComparer) : S3BucketComparer :=
  {| source_bucket := target_bucket self;
     target_bucket := source_bucket self;
     source_s3 := target_s3 self;
     target_s3 := source_s3 self;
     ignore_etags := ignore_etags self;
     compare_hashes := compare_hashes self |}.

(** The sum of the sizes of the sets stored in [differences]. *)
Definition diff_total (differences : gmap string (gset string)) : nat :=
  map_fold (λ _ (keys : gset string) n, size keys + n) 0 differences.

(** The decision order as the loop body of [compare_buckets] takes it:
    the steps 1 to 6 of section 4.2 of the specification, with the content
    check of step 5 decided by the value of [_compare_file_hashes], which
    is [False] also when a digest cannot be computed. *)
Definition spec_outcome (self : S3BucketComparer)
    (source target : gmap string ObjectMeta) (k : string) : Outcome :=
  match source !! k, target !! k with
  | None, _ => ExtraInTarget
  | Some _, None => MissingInTarget
  | Some s, Some t =>
      if decide (Size s ≠ Size t) then SizeMismatch
      else if decide (ignore_etags self = false ∧ ETag s ≠ ETag t)
      then IntegrityTagMismatch
      else if decide (compare_hashes self = true
                      ∧ _compare_file_hashes self k = false)
      then ContentMismatch
      else Matched
  end.

(** The Content Verifier of the specification (section 4.3), written from
    the specification's words over the digests that [_calculate_md5]
    delivers: it reports equality when both digests are identical,
    inequality when they differ, and fails when either stream cannot be
    read to a digest. *)
Inductive Verification :=
| ReportsEqual
| ReportsInequality
| VerificationError.

#[global] Instance Verification_eq_dec : EqDecision Verification.
Proof. solve_decision. Defined.

Definition verify_equal (self : S3BucketComparer) (key : string) : Verification :=
  match _calculate_md5 (source_s3 self) (source_bucket self) key,
        _calculate_md5 (target_s3 self) (target_bucket self) key with
  | Some source_digest, Some target_digest =>
      if decide (source_digest = target_digest)
      then ReportsEqual else ReportsInequality
  | _, _ => VerificationError
  end.

(** The decision order in the specification's words: [ContentMismatch]
    when content verification is enabled and the verifier reports
    inequality, [Matched] in every other case that reaches step 5. *)
Definition stated_outcome (self : S3BucketComparer)
    (source target : gmap string ObjectMeta) (k : string) : Outcome :=
  match source !! k, target !! k with
  | None, _ => ExtraInTarget
  | Some _, None => MissingInTarget
  | Some s, Some t =>
      if decide (Size s ≠ Size t) then SizeMismatch
      else if decide (ignore_etags self = false ∧ ETag s ≠ ETag t)
      then IntegrityTagMismatch
      else if decide (compare_hashes self = true
                      ∧ verify_equal self k = ReportsInequality)
      then ContentMismatch
      else Matched
  end.

(** The same decision order with the one change the code makes:
    [ContentMismatch] when content verification is enabled and the verifier
    does not report equality, be it that it reports inequality or that it
    fails. *)
Definition decided_outcome (self : S3BucketComparer)
    (source target : gmap string ObjectMeta) (k : string) : Outcome :=
  match source !! k, target !! k with
  | None, _ => ExtraInTarget
  | Some _, None => MissingInTarget
  | Some s, Some t =>
      if decide (Size s ≠ Size t) then SizeMismatch
      else if decide (ignore_etags self = false ∧ ETag s ≠ ETag t)
      then IntegrityTagMismatch
      else if decide (compare_hashes self = true
                      ∧ verify_equal self k ≠ ReportsEqual)
      then ContentMismatch
      else Matched
  end.

(** The keys of a list that the decision order leaves matched. *)
Definition matched_in (self : S3BucketComparer)
    (source target : gmap string ObjectMeta) (l : list string) : list string :=
  filter (λ k, spec_outcome self source target k = Matched) l.

(** Filing an outcome in the report: what one turn of the loop does once
    the outcome of the key is known. *)
Definition record_outcome (o : Outcome) (key : string)
    (acc : gmap string (gset string) * gmap string nat)
  : gmap string (gset string) * gmap string nat :=
  match category o with
  | Some cat => (dd_add cat key acc.1, acc.2)
  | None => (acc.1, dd_incr "matched_files" acc.2)
  end.

(** ** [main] *)

(** [any(differences.values())]: some stored set is not empty. *)
Definition any_values (differences : gmap string (gset string)) : bool :=
  existsb (λ kv : string * gset string, negb (bool_decide (kv.2 = ∅)))
    (map_to_list differences).

(** [main] after [parser.parse_args()]: [constructed] is the outcome of
    [S3BucketComparer(...)], which raises when a profile cannot be loaded.
    The result is the argument of [sys.exit]. *)
Definition main (constructed : exn + S3BucketComparer) : Z :=
  match constructed with
  | inl _ => 1
  | inr comparer =>
      match compare_buckets comparer with
      | inl _ => 1
      | inr (differences, stats) =>
          if negb (any_values differences) then 0 else 1
      end
  end%Z.

(** ** The listing of differences in [main] *)

(** [diff_type.replace('_', ' ')] *)
Fixpoint replace_underscore (s : string) : string :=
  match s with
  | EmptyString => EmptyString
  | String c rest =>
      String (if Ascii.eqb c "_" then " "%char else c) (replace_underscore rest)
  end.

(** ASCII letters and their case. *)
Definition is_lower (c : ascii) : bool :=
  (97 <=? N_of_ascii c)%N && (N_of_ascii c <=? 122)%N.

Definition is_upper (c : ascii) : bool :=
  (65 <=? N_of_ascii c)%N && (N_of_ascii c <=? 90)%N.

Definition to_upper (c : ascii) : ascii :=
  if is_lower c then ascii_of_N (N_of_ascii c - 32) else c.

Definition to_lower (c : ascii) : ascii :=
  if is_upper c then ascii_of_N (N_of_ascii c + 32) else c.

(** [str.title()] on ASCII text, as CPython computes it: a character that
    follows a cased character is lowered, any other one is raised. *)
Fixpoint title_from (previous_is_cased : bool) (s : string) : string :=
  match s with
  | EmptyString => EmptyString
  | String c rest =>
      String (if previous_is_cased then to_lower c else to_upper c)
        (title_from (is_lower c || is_upper c) rest)
  end.

Definition title (s : string) : string := title_from false s.

(** The order of [str]: position by position, a proper prefix first.  A
    key is held as its UTF-8 bytes, and comparing those byte by byte orders
    the keys as comparing their code points does. *)
Definition key_le (a b : string) : Prop := String.leb a b = true.

#[global] Instance key_le_dec a b : Decision (key_le a b).
Proof. unfold key_le. apply _. Defined.

(** [sorted(keys)].  The keys of a set are distinct, so the sorted list
    is unique and the sorting algorithm does not show. *)
Definition sorted (keys : gset string) : list string :=
  merge_sort key_le (elements keys).

(** The body of [for diff_type, keys in differences.items()]: the lines
    logged for one item. *)
Definition render_item (item : string * gset string) : list string :=
  if bool_decide (item.2 = ∅) then []
  else (String "010" (title (replace_underscore item.1) ++ ":"))
         :: ((λ key, "  - " ++ key) <$> sorted item.2).


(** ** Variations of a run *)

(** The same comparer with other flags. *)
Definition with_flags (self : S3BucketComparer) (ignore hashes : bool)
  : S3BucketComparer :=
  {| source_bucket := source_bucket self; target_bucket := target_bucket self;
     source_s3 := source_s3 self; target_s3 := target_s3 self;
     ignore_etags := ignore; compare_hashes := hashes |}.

(** A snapshot without its timestamps. *)
Definition without_last_modified (objects : gmap string ObjectMeta)
  : gmap string (Z * string) :=
  (λ obj, (Size obj, ETag obj)) <$> objects.

(** The five keys [compare_buckets] uses in [differences]. *)
Definition difference_categories : gset string :=
  {[ "extra_in_target"; "missing_in_target"; "size_mismatch";
     "etag_mismatch"; "content_mismatch" ]}.


(** * Properties *)

(** ** The two [defaultdict]s *)

Lemma dd_get_empty cat : dd_get ∅ cat = ∅.
Proof. unfold dd_get. by rewrite lookup_empty. Qed.

Lemma dd_get_add cat cat' key d :
  dd_get (dd_add cat key d) cat'
  = if decide (cat = cat') then dd_get d cat ∪ {[key]} else dd_get d cat'.
Proof.
  unfold dd_add, dd_get at 1. case_decide as Hc.
  - subst. by rewrite lookup_insert_eq.
  - by rewrite lookup_insert_ne.
Qed.

Lemma inhabited_values_empty : inhabited_values ∅.
Proof. intros cat keys. by rewrite lookup_empty. Qed.

Lemma inhabited_values_add cat key d :
  inhabited_values d → inhabited_values (dd_add cat key d).
Proof.
  intros Hd cat' keys. unfold dd_add.
  destruct (decide (cat = cat')) as [->|Hne].
  - rewrite lookup_insert_eq. intros [= <-]. set_solver.
  - rewrite lookup_insert_ne by done. apply Hd.
Qed.

(** A report with inhabited values is determined by its sets. *)
Lemma inhabited_values_lookup d cat :
  inhabited_values d →
  d !! cat = if decide (dd_get d cat = ∅) then None else Some (dd_get d cat).
Proof.
  intros Hd. unfold dd_get. destruct (d !! cat) as [keys|] eqn:E; simpl.
  - rewrite decide_False; [done | by eapply Hd].
  - by rewrite decide_True.
Qed.

Lemma diff_total_empty : diff_total ∅ = 0.
Proof. apply map_fold_empty. Qed.

Lemma diff_total_add cat key d :
  key ∉ dd_get d cat → diff_total (dd_add cat key d) = S (diff_total d).
Proof.
  intros Hfresh. unfold dd_add, diff_total, dd_get in *.
  destruct (d !! cat) as [keys|] eqn:E; simpl in *.
  - rewrite <- insert_delete_eq.
    rewrite map_fold_insert_L; [| intros; lia | apply lookup_delete_eq].
    rewrite (map_fold_delete_L _ _ cat keys d); [| intros; lia | done].
    rewrite size_union by set_solver. rewrite size_singleton. lia.
  - rewrite map_fold_insert_L; [| intros; lia | done].
    rewrite (left_id_L ∅ (∪)), size_singleton. lia.
Qed.

(** ** One turn of the loop of [compare_buckets] *)

Section Loop.

Variable self : S3BucketComparer.
Variables source_objects target_objects : gmap string ObjectMeta.

Local Abbreviation step := (compare_key self source_objects target_objects).
Local Abbreviation outcome := (spec_outcome self source_objects target_objects).
Local Abbreviation matched := (matched_in self source_objects target_objects).

(** The body of the loop files the key under the outcome that the decision
    order of the specification gives it. *)
Lemma compare_key_record acc key :
  step acc key = record_outcome (outcome key) key acc.
Proof.
  destruct acc as [d st]. unfold compare_key, spec_outcome, record_outcome.
  destruct (source_objects !! key) as [s|]; [|done].
  destruct (target_objects !! key) as [t|]; [|done].
  destruct (decide (Size s ≠ Size t)) as [Hs|Hs].
  { by rewrite bool_decide_eq_true_2. }
  rewrite bool_decide_eq_false_2 by done.
  destruct (decide (ignore_etags self = false ∧ ETag s ≠ ETag t)) as [[Hi He]|He].
  { by rewrite Hi, bool_decide_eq_true_2. }
  replace (negb (ignore_etags self) && bool_decide (ETag s ≠ ETag t))
    with false.
  2:{ symmetry. apply andb_false_iff. rewrite negb_false_iff.
      rewrite bool_decide_eq_false. destruct (ignore_etags self); tauto. }
  destruct (decide (compare_hashes self = true
                    ∧ _compare_file_hashes self key = false)) as [[Hc Hh]|Hn].
  { by rewrite Hc, Hh. }
  destruct (compare_hashes self), (_compare_file_hashes self key); simpl;
    (done || tauto).
Qed.

Lemma category_inj o1 o2 cat :
  category o1 = Some cat → category o2 = Some cat → o1 = o2.
Proof. destruct o1, o2; simpl; congruence. Qed.

Lemma record_outcome_sets o key acc cat k :
  k ∈ dd_get (record_outcome o key acc).1 cat
  ↔ k ∈ dd_get acc.1 cat ∨ (k = key ∧ category o = Some cat).
Proof.
  unfold record_outcome. destruct (category o) as [c|]; simpl.
  - rewrite dd_get_add. case_decide; set_solver.
  - naive_solver.
Qed.

Lemma record_outcome_inhabited o key acc :
  inhabited_values acc.1 → inhabited_values (record_outcome o key acc).1.
Proof.
  unfold record_outcome. destruct (category o); simpl; [|done].
  apply inhabited_values_add.
Qed.

(** ** The whole loop, from any state and over any list of keys *)

Lemma loop_sets l acc cat k :
  k ∈ dd_get (foldl step acc l).1 cat
  ↔ k ∈ dd_get acc.1 cat ∨ (k ∈ l ∧ category (outcome k) = Some cat).
Proof.
  revert acc. induction l as [|key l IH]; intros acc; simpl.
  - set_solver.
  - rewrite IH, compare_key_record, record_outcome_sets, elem_of_cons.
    naive_solver.
Qed.

Lemma loop_inhabited l acc :
  inhabited_values acc.1 → inhabited_values (foldl step acc l).1.
Proof.
  revert acc. induction l as [|key l IH]; intros acc Hacc; simpl; [done|].
  apply IH. rewrite compare_key_record. by apply record_outcome_inhabited.
Qed.

Lemma loop_stats l acc :
  (foldl step acc l).2
  = Nat.iter (length (matched l)) (dd_incr "matched_files") acc.2.
Proof.
  revert acc. induction l as [|key l IH]; intros acc; simpl; [done|].
  rewrite IH, compare_key_record. unfold matched_in, record_outcome.
  rewrite filter_cons. case_decide as Hm.
  - rewrite Hm. simpl. apply Nat.iter_swap.
  - destruct (outcome key); simpl; done.
Qed.

Lemma iter_incr_matched n m (stats : gmap string nat) :
  stats !! "matched_files" = Some m →
  Nat.iter n (dd_incr "matched_files") stats = <["matched_files" := n + m]> stats.
Proof.
  intros Hm. induction n as [|n IH]; simpl.
  - by rewrite insert_id.
  - rewrite IH. unfold dd_incr. rewrite lookup_insert_eq. simpl.
    by rewrite insert_insert_eq.
Qed.

(** Every turn adds one to the sum of the sizes of the sets or to the
    counter of matched keys. *)
Lemma loop_total l acc :
  NoDup l →
  (∀ k cat, k ∈ l → k ∉ dd_get acc.1 cat) →
  diff_total (foldl step acc l).1 + length (matched l)
  = diff_total acc.1 + length l.
Proof.
  revert acc. induction l as [|key l IH]; intros acc Hnd Hfresh; simpl.
  - unfold matched_in. simpl. lia.
  - apply NoDup_cons in Hnd as [Hkey Hnd].
    specialize (IH (step acc key) Hnd). rewrite compare_key_record in *.
    assert (diff_total (record_outcome (outcome key) key acc).1
            + length (matched [key]) = S (diff_total acc.1)) as Hstep.
    { unfold record_outcome, matched_in.
      rewrite filter_cons, filter_nil.
      destruct (category (outcome key)) as [cat|] eqn:Hcat; simpl.
      - rewrite diff_total_add by (apply Hfresh; left).
        rewrite decide_False; [simpl; lia|]. intros Hm. by rewrite Hm in Hcat.
      - rewrite decide_True; [simpl; lia|]. by destruct (outcome key). }
    assert (length (matched (key :: l))
            = length (matched [key]) + length (matched l)) as ->.
    { unfold matched_in.
      rewrite !filter_cons, filter_nil. case_decide; simpl; lia. }
    rewrite Nat.add_assoc, (Nat.add_comm _ (length (matched [key]))).
    rewrite <- Nat.add_assoc, IH; [lia|].
    intros k cat Hk. rewrite record_outcome_sets.
    intros [Hin|[-> _]]; [|done]. eapply Hfresh; [|done]. by right.
Qed.

End Loop.

(** ** The report of [compare_buckets] on two snapshots *)

Section Report.

Variable self : S3BucketComparer.
Variables source_objects target_objects : gmap string ObjectMeta.

Local Abbreviation report := (compare_objects self source_objects target_objects).
Local Abbreviation outcome := (spec_outcome self source_objects target_objects).
Local Abbreviation union := (all_keys source_objects target_objects).

Lemma report_sets cat k :
  k ∈ dd_get report.1 cat ↔ k ∈ union ∧ category (outcome k) = Some cat.
Proof.
  unfold compare_objects, compare_objects_in.
  rewrite loop_sets. simpl. rewrite dd_get_empty, elem_of_elements. set_solver.
Qed.

Lemma report_inhabited : inhabited_values report.1.
Proof. apply loop_inhabited, inhabited_values_empty. Qed.

Lemma report_stats :
  report.2
  = <["matched_files" := length (matched_in self source_objects target_objects
                                   (elements union))]>
      (<["total_files" := size union]> ∅).
Proof.
  unfold compare_objects, compare_objects_in. rewrite loop_stats. simpl.
  rewrite (iter_incr_matched _ 0) by apply lookup_insert_eq.
  by rewrite Nat.add_0_r, insert_insert_eq.
Qed.

Lemma report_total :
  diff_total report.1
  + length (matched_in self source_objects target_objects (elements union))
  = size union.
Proof.
  unfold compare_objects, compare_objects_in. rewrite loop_total; simpl.
  - by rewrite diff_total_empty.
  - apply NoDup_elements.
  - intros k cat _. rewrite dd_get_empty. set_solver.
Qed.

(** A key of the union is given the outcome of the decision order, and no
    other. *)
Lemma report_assigned k o :
  k ∈ union → assigned report.1 k o ↔ o = outcome k.
Proof.
  intros Hk. unfold assigned. destruct (category o) as [cat|] eqn:Ho.
  - rewrite report_sets. split.
    + intros [_ Hc]. symmetry. by eapply category_inj.
    + intros <-. done.
  - split.
    + intros Hnone. destruct (category (outcome k)) as [cat|] eqn:Hc.
      * exfalso. apply (Hnone cat). by rewrite report_sets.
      * destruct o, (outcome k); simpl in *; congruence.
    + intros -> cat. rewrite report_sets. intros [_ Hc]. congruence.
Qed.

(** X19: a Python set is iterated in an unspecified order; the report is
    the same for every order in which the loop may meet the keys of the
    union, each once. *)
Lemma iteration_order_irrelevant l :
  NoDup l → (∀ k, k ∈ l ↔ k ∈ union) →
  compare_objects_in l self source_objects target_objects = report.
Proof.
  intros Hnd Hl.
  assert (l ≡ₚ elements union) as Hperm.
  { apply NoDup_Permutation; [done | apply NoDup_elements |].
    intros k. by rewrite Hl, elem_of_elements. }
  unfold compare_objects, compare_objects_in.
  match goal with
  | |- foldl ?f ?a l = foldl ?f ?a ?l' =>
      apply (injective_projections (foldl f a l) (foldl f a l'))
  end.
  - apply map_eq. intros cat.
    rewrite !inhabited_values_lookup
      by apply loop_inhabited, inhabited_values_empty.
    match goal with
    | |- context [decide (?X = ∅)] =>
        match goal with
        | |- _ = (if decide (?Y = ∅) then _ else _) =>
            assert (X = Y) as ->; [|done]
        end
    end.
    apply set_eq. intros k. rewrite !loop_sets. by rewrite Hperm.
  - rewrite !loop_stats. f_equal. unfold matched_in.
    apply Permutation_length. by apply filter_Permutation.
Qed.

End Report.

(** ** Exchange of source and target *)

Lemma compare_file_hashes_swap self key :
  _compare_file_hashes (swap_comparer self) key = _compare_file_hashes self key.
Proof.
  unfold _compare_file_hashes, swap_comparer. simpl.
  rewrite orb_comm. destruct (_ || _); [done|].
  apply bool_decide_ext. split; congruence.
Qed.

Lemma elem_of_all_keys (source target : gmap string ObjectMeta) k :
  k ∈ all_keys source target ↔ is_Some (source !! k) ∨ is_Some (target !! k).
Proof. unfold all_keys. by rewrite elem_of_union, !elem_of_dom. Qed.

Lemma spec_outcome_swap self source target k :
  k ∈ all_keys source target →
  spec_outcome (swap_comparer self) target source k
  = swap_outcome (spec_outcome self source target k).
Proof.
  rewrite elem_of_all_keys. intros Hk.
  unfold spec_outcome. rewrite compare_file_hashes_swap.
  destruct (source !! k) as [s|], (target !! k) as [t|]; simpl; try done.
  2:{ destruct Hk as [[? [=]]|[? [=]]]. }
  destruct (decide (Size s ≠ Size t)) as [Hs|Hs].
  { rewrite decide_True; [done | congruence]. }
  rewrite decide_False by (intros ?; apply Hs; congruence).
  destruct (decide (ignore_etags self = false ∧ ETag s ≠ ETag t)) as [He|He].
  { rewrite decide_True; [done | naive_solver]. }
  rewrite decide_False by (intros [? ?]; apply He; split; congruence).
  by case_decide.
Qed.

Lemma swap_outcome_involutive o : swap_outcome (swap_outcome o) = o.
Proof. by destruct o. Qed.

Lemma all_keys_swap (source target : gmap string ObjectMeta) :
  all_keys target source = all_keys source target.
Proof. unfold all_keys. set_solver. Qed.

(** ** [any(differences.values())] *)

Lemma any_values_false d : any_values d = false ↔ ∀ cat, dd_get d cat = ∅.
Proof.
  unfold any_values. rewrite <- not_true_iff_false, existsb_exists.
  split.
  - intros Hnone cat. unfold dd_get.
    destruct (d !! cat) as [keys|] eqn:E; [|done]. simpl.
    destruct (decide (keys = ∅)) as [|Hne]; [done|]. exfalso. apply Hnone.
    exists (cat, keys). split.
    + apply list_elem_of_In. by apply elem_of_map_to_list.
    + simpl. by rewrite bool_decide_eq_false_2.
  - intros Hall [[cat keys] [Hin Hne]]. simpl in Hne.
    apply list_elem_of_In, elem_of_map_to_list in Hin.
    specialize (Hall cat). unfold dd_get in Hall. rewrite Hin in Hall.
    simpl in Hall. subst. by rewrite bool_decide_eq_true_2 in Hne.
Qed.


(** ** Snapshots *)

Lemma foldl_store_object_lookup objs (objects : gmap string ObjectMeta) k :
  foldl store_object objects objs !! k
  = match last (filter (λ obj, obj_Key obj = k) objs) with
    | Some obj => Some (metadata obj)
    | None => objects !! k
    end.
Proof.
  induction objs as [|obj objs IH] using rev_ind; [done|].
  rewrite foldl_snoc, filter_app, filter_cons, filter_nil. unfold store_object.
  case_decide as Hk.
  - subst. by rewrite last_snoc, lookup_insert_eq.
  - by rewrite app_nil_r, lookup_insert_ne.
Qed.

Lemma drain_pages_spec it (objects : gmap string ObjectMeta) :
  drain_pages it objects
  = match raised it with
    | Some e => inl e
    | None => inr (foldl store_object objects (listed it))
    end.
Proof.
  revert objects. induction it as [|page rest IH|e]; intros objects; try done.
  simpl. unfold listed. simpl. fold (listed rest).
  destruct (Contents page) as [contents|]; simpl;
    rewrite IH; destruct (raised rest); try done.
  by rewrite foldl_app.
Qed.

(** ** Keys whose content cannot be verified *)

Lemma compare_file_hashes_unavailable self key :
  _calculate_md5 (source_s3 self) (source_bucket self) key = None
  ∨ _calculate_md5 (target_s3 self) (target_bucket self) key = None →
  _compare_file_hashes self key = false.
Proof.
  unfold _compare_file_hashes. intros [-> | ->].
  - by rewrite bool_decide_eq_true_2.
  - by rewrite (bool_decide_eq_true_2 (None = None)), orb_true_r.
Qed.

Lemma spec_outcome_content_mismatch self source target key s t :
  source !! key = Some s → target !! key = Some t →
  Size s = Size t →
  ignore_etags self = true ∨ ETag s = ETag t →
  compare_hashes self = true →
  _compare_file_hashes self key = false →
  spec_outcome self source target key = ContentMismatch.
Proof.
  intros Hs Ht Hsize Htag Hc Hh. unfold spec_outcome. rewrite Hs, Ht.
  rewrite decide_False by (intros Hne; by apply Hne).
  rewrite decide_False.
  - by rewrite decide_True.
  - intros [Hi He]. destruct Htag; congruence.
Qed.

Lemma spec_outcome_matched_verified self source target key :
  spec_outcome self source target key = Matched →
  compare_hashes self = true → _compare_file_hashes self key = true.
Proof.
  unfold spec_outcome.
  destruct (source !! key), (target !! key); try done.
  repeat case_decide; try done.
  intros _ Hc. destruct (_compare_file_hashes self key); [done|]. tauto.
Qed.

Lemma matched_in_elem self source target l k :
  k ∈ matched_in self source target l
  ↔ spec_outcome self source target k = Matched ∧ k ∈ l.
Proof. unfold matched_in. by rewrite list_elem_of_filter. Qed.

Lemma compare_buckets_listed self source_objects target_objects :
  get_bucket_objects (source_s3 self) (source_bucket self) = inr source_objects →
  get_bucket_objects (target_s3 self) (target_bucket self) = inr target_objects →
  compare_buckets self
  = inr (compare_objects self source_objects target_objects).
Proof. intros Hs Ht. unfold compare_buckets. by rewrite Hs, Ht. Qed.

(** C1, as the code has it: with [compare_hashes] set, a key that reaches
    the content check (present on both sides, equal sizes, ETags equal or
    ignored) and whose digest cannot be computed on at least one side makes
    [_compare_file_hashes] return [False]; the key is filed under
    [content_mismatch], it is not counted in [matched_files], and
    [compare_buckets] still returns its report. *)
Theorem unverifiable_key_is_content_mismatch
    self source_objects target_objects key s t :
  get_bucket_objects (source_s3 self) (source_bucket self) = inr source_objects →
  get_bucket_objects (target_s3 self) (target_bucket self) = inr target_objects →
  compare_hashes self = true →
  source_objects !! key = Some s → target_objects !! key = Some t →
  Size s = Size t →
  ignore_etags self = true ∨ ETag s = ETag t →
  _calculate_md5 (source_s3 self) (source_bucket self) key = None
  ∨ _calculate_md5 (target_s3 self) (target_bucket self) key = None →
  _compare_file_hashes self key = false
  ∧ ∃ differences stats,
      compare_buckets self = inr (differences, stats)
      ∧ key ∈ dd_get differences "content_mismatch"
      ∧ (∀ cat, cat ≠ "content_mismatch" → key ∉ dd_get differences cat)
      ∧ (key ∉ matched_in self source_objects target_objects
                 (elements (all_keys source_objects target_objects)))
      ∧ stats !! "matched_files"
        = Some (length (matched_in self source_objects target_objects
                          (elements (all_keys source_objects target_objects)))).
Proof.
  intros Hsrc Htgt Hc Hs Ht Hsize Htag Hfail.
  pose proof (compare_file_hashes_unavailable _ _ Hfail) as Hh.
  pose proof (spec_outcome_content_mismatch _ _ _ _ _ _
                Hs Ht Hsize Htag Hc Hh) as Ho.
  split; [done|].
  destruct (compare_objects self source_objects target_objects)
    as [differences stats] eqn:Hr.
  exists differences, stats.
  rewrite (compare_buckets_listed _ _ _ Hsrc Htgt), Hr.
  assert (key ∈ all_keys source_objects target_objects) as Hk.
  { apply elem_of_all_keys. left. by eexists. }
  replace differences
    with (compare_objects self source_objects target_objects).1
    by (by rewrite Hr).
  replace stats with (compare_objects self source_objects target_objects).2
    by (by rewrite Hr).
  repeat split.
  - rewrite report_sets, Ho. done.
  - intros cat Hcat. rewrite report_sets, Ho. simpl. intros [_ [= <-]]. done.
  - rewrite matched_in_elem, Ho. intros [[=] _].
  - rewrite report_stats. apply lookup_insert_eq.
Qed.

(** C9: when the digest is unavailable on both sides,
    [_compare_file_hashes] returns [False], because the test for [None]
    comes before the comparison; with [compare_hashes] set such a key is
    never among the matched keys. *)
Theorem both_hashes_unavailable self key :
  _calculate_md5 (source_s3 self) (source_bucket self) key = None →
  _calculate_md5 (target_s3 self) (target_bucket self) key = None →
  _compare_file_hashes self key = false
  ∧ (compare_hashes self = true →
     ∀ source_objects target_objects,
       ¬ assigned (compare_objects self source_objects target_objects).1
           key Matched
       ∨ key ∉ all_keys source_objects target_objects)
  ∧ (compare_hashes self = true →
     ∀ source_objects target_objects l,
       key ∉ matched_in self source_objects target_objects l).
Proof.
  intros Hs Ht.
  assert (_compare_file_hashes self key = false) as Hh.
  { apply compare_file_hashes_unavailable. by left. }
  split; [done|]. split.
  - intros Hc source_objects target_objects.
    destruct (decide (key ∈ all_keys source_objects target_objects)) as [Hk|Hk];
      [left | by right].
    rewrite report_assigned by done. intros Hm. symmetry in Hm.
    apply spec_outcome_matched_verified in Hm; [congruence | done].
  - intros Hc source_objects target_objects l. rewrite matched_in_elem.
    intros [Hm _].
    apply spec_outcome_matched_verified in Hm; [congruence | done].
Qed.

Lemma compare_file_hashes_verify_equal self key :
  _compare_file_hashes self key = false ↔ verify_equal self key ≠ ReportsEqual.
Proof.
  unfold _compare_file_hashes, verify_equal.
  destruct (_calculate_md5 (source_s3 self) (source_bucket self) key)
    as [hs|];
    destruct (_calculate_md5 (target_s3 self) (target_bucket self) key)
      as [ht|];
    repeat case_bool_decide; repeat case_decide; simplify_eq; simpl;
    split; done.
Qed.

Lemma decided_outcome_spec_outcome self source target k :
  decided_outcome self source target k = spec_outcome self source target k.
Proof.
  unfold decided_outcome, spec_outcome.
  destruct (source !! k) as [s|], (target !! k) as [t|]; try done.
  destruct (decide (Size s ≠ Size t)); [done|].
  destruct (decide (ignore_etags self = false ∧ ETag s ≠ ETag t)); [done|].
  pose proof (compare_file_hashes_verify_equal self k) as Hv.
  repeat case_decide; try done; exfalso; tauto.
Qed.

Lemma decided_outcome_stated_outcome self source target k :
  verify_equal self k ≠ VerificationError →
  decided_outcome self source target k = stated_outcome self source target k.
Proof.
  intros Hv. unfold decided_outcome, stated_outcome.
  destruct (source !! k) as [s|], (target !! k) as [t|]; try done.
  destruct (decide (Size s ≠ Size t)); [done|].
  destruct (decide (ignore_etags self = false ∧ ETag s ≠ ETag t)); [done|].
  destruct (verify_equal self k);
    repeat case_decide; try done; exfalso; naive_solver.
Qed.

(** C3, as the code has it: every key of the union of the key sets of the
    two snapshots is given the outcome of the fixed decision order and no
    other.  The order is [ExtraInTarget] for a key absent from the source,
    else [MissingInTarget] for one absent from the target, else
    [SizeMismatch] when the sizes differ, else [IntegrityTagMismatch] when
    ETags are compared and differ, else [ContentMismatch] when content
    verification is enabled and does not report equality (it reports
    inequality, or a digest cannot be computed), else [Matched].  Where the
    verification does not fail this is the order as the specification words
    it, and [matched_files] is the number of keys of the union whose
    outcome is [Matched]. *)
Theorem decision_order_unless_verified_equal
    self source_objects target_objects k :
  k ∈ dom source_objects ∪ dom target_objects →
  let report := compare_objects self source_objects target_objects in
  assigned report.1 k (decided_outcome self source_objects target_objects k)
  ∧ (∀ o, assigned report.1 k o
          → o = decided_outcome self source_objects target_objects k)
  ∧ (verify_equal self k ≠ VerificationError →
     decided_outcome self source_objects target_objects k
     = stated_outcome self source_objects target_objects k)
  ∧ report.2 !! "matched_files"
    = Some (size (filter (λ k', decided_outcome self source_objects
                                  target_objects k' = Matched)
                    (dom source_objects ∪ dom target_objects))).
Proof.
  intros Hk report. subst report.
  change (dom source_objects ∪ dom target_objects)
    with (all_keys source_objects target_objects) in *.
  rewrite decided_outcome_spec_outcome. split; [|split; [|split]].
  - by apply report_assigned.
  - intros o. by rewrite report_assigned.
  - intros Hv. rewrite <- decided_outcome_spec_outcome.
    by apply decided_outcome_stated_outcome.
  - rewrite report_stats, lookup_insert_eq. f_equal.
    rewrite <- (size_list_to_set (C := gset string)
                  (matched_in self source_objects target_objects
                     (elements (all_keys source_objects target_objects))))
      by (unfold matched_in; apply NoDup_filter, NoDup_elements).
    f_equal. apply set_eq. intros k'.
    rewrite elem_of_list_to_set, matched_in_elem, elem_of_elements,
      elem_of_filter, decided_outcome_spec_outcome. done.
Qed.

(** C2: [total_files] is the number of keys of the union of the key sets
    of the two snapshots; every key of that union has exactly one outcome;
    the sets of [differences] hold keys of the union only; and
    [matched_files], the number of keys of the union with outcome
    [Matched], plus the sizes of the sets of [differences] is
    [total_files]. *)
Theorem classification_totals self source_objects target_objects :
  let report := compare_objects self source_objects target_objects in
  let union : gset string := dom source_objects ∪ dom target_objects in
  report.2 !! "total_files" = Some (size union)
  ∧ (∀ k, k ∈ union →
       ∃ o, assigned report.1 k o ∧ ∀ o', assigned report.1 k o' → o' = o)
  ∧ (∀ k cat, k ∈ dd_get report.1 cat → k ∈ union)
  ∧ ∃ matched : gset string,
      (∀ k, k ∈ matched ↔ k ∈ union ∧ assigned report.1 k Matched)
      ∧ report.2 !! "matched_files" = Some (size matched)
      ∧ size matched + diff_total report.1 = size union.
Proof.
  intros report union. subst report union.
  change (dom source_objects ∪ dom target_objects)
    with (all_keys source_objects target_objects).
  split; [|split; [|split]].
  - rewrite report_stats. by rewrite lookup_insert_ne, lookup_insert_eq.
  - intros k Hk. exists (spec_outcome self source_objects target_objects k).
    split; [by apply report_assigned|]. intros o Ho.
    by apply report_assigned in Ho.
  - intros k cat. rewrite report_sets. tauto.
  - set (l := matched_in self source_objects target_objects
                (elements (all_keys source_objects target_objects))).
    assert (size (list_to_set l : gset string) = length l) as Hsize.
    { apply size_list_to_set. unfold l, matched_in.
      apply NoDup_filter, NoDup_elements. }
    exists (list_to_set l). split; [|split].
    + intros k. rewrite elem_of_list_to_set. unfold l.
      rewrite matched_in_elem, elem_of_elements. split.
      * intros [Hm Hk]. split; [done|]. by apply report_assigned.
      * intros [Hk Hm]. split; [|done]. by apply report_assigned in Hm.
    + rewrite Hsize, report_stats. apply lookup_insert_eq.
    + rewrite Hsize, Nat.add_comm. apply report_total.
Qed.

(** ** Source and target exchanged *)

Lemma spec_outcome_swap_matched self source target k :
  spec_outcome (swap_comparer self) target source k = Matched
  ↔ spec_outcome self source target k = Matched.
Proof.
  destruct (decide (k ∈ all_keys source target)) as [Hk|Hk].
  - rewrite spec_outcome_swap by done.
    destruct (spec_outcome self source target k); simpl; split; congruence.
  - rewrite elem_of_all_keys in Hk. unfold spec_outcome.
    destruct (source !! k), (target !! k); try done; exfalso; apply Hk; eauto.
Qed.

Lemma report_sets_swap self source target cat cat' :
  (∀ o, category (swap_outcome o) = Some cat' ↔ category o = Some cat) →
  (compare_objects (swap_comparer self) target source).1 !! cat'
  = (compare_objects self source target).1 !! cat.
Proof.
  intros Hcat. rewrite !inhabited_values_lookup by apply report_inhabited.
  assert (dd_get (compare_objects (swap_comparer self) target source).1 cat'
          = dd_get (compare_objects self source target).1 cat) as ->; [|done].
  apply set_eq. intros k. rewrite !report_sets, all_keys_swap.
  split; intros [Hk Hc]; (split; [done|]);
    rewrite spec_outcome_swap in * by done; by apply Hcat.
Qed.

(** C4: classifying [(T, S)] instead of [(S, T)] gives every key of the
    union the exchanged outcome: [MissingInTarget] and [ExtraInTarget] trade
    places and the four other outcomes stay.  The two sets trade places in
    [differences], every other entry is the same, and so are the counters. *)
Theorem swap_symmetry self source_objects target_objects k :
  k ∈ all_keys source_objects target_objects →
  let report := compare_objects self source_objects target_objects in
  let swapped :=
    compare_objects (swap_comparer self) target_objects source_objects in
  (∀ o, assigned swapped.1 k (swap_outcome o) ↔ assigned report.1 k o)
  ∧ swapped.1 !! "extra_in_target" = report.1 !! "missing_in_target"
  ∧ swapped.1 !! "missing_in_target" = report.1 !! "extra_in_target"
  ∧ (∀ cat, cat ≠ "extra_in_target" → cat ≠ "missing_in_target" →
       swapped.1 !! cat = report.1 !! cat)
  ∧ swapped.2 = report.2.
Proof.
  intros Hk report swapped. subst report swapped.
  split; [|split; [|split; [|split]]].
  - intros o.
    rewrite (report_assigned (swap_comparer self) target_objects source_objects)
      by (by rewrite all_keys_swap).
    rewrite (report_assigned self source_objects target_objects) by done.
    rewrite spec_outcome_swap by done.
    destruct o, (spec_outcome self source_objects target_objects k);
      simpl; split; congruence.
  - apply report_sets_swap. intros o. destruct o; simpl; split; congruence.
  - apply report_sets_swap. intros o. destruct o; simpl; split; congruence.
  - intros cat Hx Hm. apply report_sets_swap.
    intros o. destruct o; simpl; split; congruence.
  - rewrite !report_stats, all_keys_swap. do 2 f_equal. unfold matched_in.
    apply list_filter_iff. intros x. apply spec_outcome_swap_matched.
Qed.

(** ** The exit status *)

(** C5: [main] exits with 0 or 1, and with 0 exactly when the comparer was
    built, both listings succeeded and every set of [differences] is empty;
    on differences and on any exception it exits with 1. *)
Theorem exit_status constructed :
  (main constructed = 0 ∨ main constructed = 1)%Z
  ∧ (main constructed = 0%Z
     ↔ ∃ comparer differences stats,
         constructed = inr comparer
         ∧ compare_buckets comparer = inr (differences, stats)
         ∧ ∀ cat, dd_get differences cat = ∅).
Proof.
  unfold main. destruct constructed as [e|comparer].
  { split; [by right|]. split; [done|]. by intros (? & ? & ? & [=] & _). }
  destruct (compare_buckets comparer) as [e|[differences stats]] eqn:Hrun.
  { split; [by right|]. split; [done|].
    intros (c & d & st & [= <-] & Hd & _). congruence. }
  destruct (any_values differences) eqn:Hany; simpl.
  - split; [by right|]. split; [done|].
    intros (c & d & st & [= <-] & Hd & Hempty).
    rewrite Hrun in Hd. injection Hd as <- <-.
    apply any_values_false in Hempty. congruence.
  - split; [by left|]. split; [|done]. intros _.
    exists comparer, differences, stats. by rewrite <- any_values_false.
Qed.

(** ** Listings *)

Lemma get_bucket_objects_spec s3_client bucket_name :
  get_bucket_objects s3_client bucket_name
  = match raised (paginate s3_client 0 bucket_name) with
    | Some e => inl e
    | None => inr (snapshot_of (paginate s3_client 0 bucket_name))
    end.
Proof. apply drain_pages_spec. Qed.

(** C6: a listing that does not raise is drained to its end, and the
    snapshot holds, for every key on any page, the metadata listed last for
    it and nothing else; a listing that raises gives the exception and no
    snapshot.  The first attempt decides: when it raises for either bucket,
    whatever a later attempt would return, [compare_buckets] raises the
    same exception and [main] exits with 1. *)
Theorem listing_failure_is_fatal self :
  (∀ s3_client bucket_name,
     raised (paginate s3_client 0 bucket_name) = None →
     ∃ objects,
       get_bucket_objects s3_client bucket_name = inr objects
       ∧ ∀ k, objects !! k
              = metadata <$> last (filter (λ obj, obj_Key obj = k)
                                     (listed (paginate s3_client 0 bucket_name))))
  ∧ (∀ s3_client bucket_name e,
       raised (paginate s3_client 0 bucket_name) = Some e →
       get_bucket_objects s3_client bucket_name = inl e)
  ∧ (∀ e, raised (paginate (source_s3 self) 0 (source_bucket self)) = Some e →
       compare_buckets self = inl e ∧ main (inr self) = 1%Z)
  ∧ (∀ e, raised (paginate (source_s3 self) 0 (source_bucket self)) = None →
       raised (paginate (target_s3 self) 0 (target_bucket self)) = Some e →
       compare_buckets self = inl e ∧ main (inr self) = 1%Z).
Proof.
  split; [|split; [|split]].
  - intros s3_client bucket_name Hok. eexists. split.
    + by rewrite get_bucket_objects_spec, Hok.
    + intros k. unfold snapshot_of. rewrite foldl_store_object_lookup.
      destruct (last _); simpl; [done | apply lookup_empty].
  - intros s3_client bucket_name e He. by rewrite get_bucket_objects_spec, He.
  - intros e He. unfold main, compare_buckets.
    by rewrite get_bucket_objects_spec, He.
  - intros e Hs He. unfold main, compare_buckets.
    by rewrite !get_bucket_objects_spec, Hs, He.
Qed.

(** C10: a page without ['Contents'] is skipped, whatever follows it, and
    a listing that consists of such pages only, as for an empty bucket,
    gives the empty snapshot. *)
Theorem pages_without_contents_are_skipped s3_client bucket_name :
  (∀ rest objects,
     drain_pages (Yield {| Contents := None |} rest) objects
     = drain_pages rest objects)
  ∧ (raised (paginate s3_client 0 bucket_name) = None →
     Forall (λ page, Contents page = None) (pages (paginate s3_client 0 bucket_name)) →
     get_bucket_objects s3_client bucket_name = inr ∅).
Proof.
  split; [done|]. intros Hok Hpages.
  rewrite get_bucket_objects_spec, Hok. unfold snapshot_of. do 2 f_equal.
  unfold listed. induction Hpages as [|page l Hpage _ IH]; [done|].
  simpl. by rewrite Hpage.
Qed.

(** ** ETags ignored *)

(** C7: with [ignore_etags] set, [differences] has no entry
    [etag_mismatch] and no key has the outcome [IntegrityTagMismatch]; a key
    present on both sides with equal sizes is filed under
    [content_mismatch] when [compare_hashes] is set and the digests are not
    found equal, and is matched otherwise. *)
Theorem ignore_etags_skips_tag_check self source_objects target_objects :
  ignore_etags self = true →
  let report := compare_objects self source_objects target_objects in
  report.1 !! "etag_mismatch" = None
  ∧ (∀ k, ¬ assigned report.1 k IntegrityTagMismatch)
  ∧ ∀ k s t,
      source_objects !! k = Some s → target_objects !! k = Some t →
      Size s = Size t →
      if compare_hashes self && negb (_compare_file_hashes self k)
      then assigned report.1 k ContentMismatch
      else assigned report.1 k Matched.
Proof.
  intros Hi report. subst report.
  assert (∀ k, spec_outcome self source_objects target_objects k
               ≠ IntegrityTagMismatch) as Hno.
  { intros k. unfold spec_outcome.
    destruct (source_objects !! k), (target_objects !! k); try done.
    repeat case_decide; try done. destruct_and!. congruence. }
  assert (∀ k, k ∉ dd_get (compare_objects self source_objects
                             target_objects).1 "etag_mismatch") as Hnone.
  { intros k. rewrite report_sets. intros [_ Hc]. apply (Hno k).
    by apply (category_inj _ IntegrityTagMismatch _ Hc). }
  split; [|split].
  - rewrite inhabited_values_lookup by apply report_inhabited.
    rewrite decide_True; [done|]. apply set_eq. intros k. split; [|set_solver].
    intros Hk. by apply Hnone in Hk.
  - intros k. apply Hnone.
  - intros k s t Hs Ht Hsize.
    assert (k ∈ all_keys source_objects target_objects) as Hk.
    { apply elem_of_all_keys. left. by eexists. }
    assert (spec_outcome self source_objects target_objects k
            = if compare_hashes self && negb (_compare_file_hashes self k)
              then ContentMismatch else Matched) as Ho.
    { unfold spec_outcome. rewrite Hs, Ht.
      rewrite decide_False by (intros Hne; by apply Hne).
      rewrite decide_False by (intros [? _]; congruence).
      destruct (decide (compare_hashes self = true
                        ∧ _compare_file_hashes self k = false)) as [[-> ->]|Hn];
        [done|].
      destruct (compare_hashes self), (_compare_file_hashes self k); simpl;
        (done || tauto). }
    destruct (compare_hashes self && negb (_compare_file_hashes self k));
      by rewrite report_assigned.
Qed.

(** ** Entries of [differences] *)

(** C8: no entry of the [differences] returned by [compare_buckets] is an
    empty set, and a category has no entry exactly when no key of the two
    snapshots has that outcome. *)
Theorem no_empty_category self differences stats :
  compare_buckets self = inr (differences, stats) →
  (∀ cat keys, differences !! cat = Some keys → keys ≠ ∅)
  ∧ ∃ source_objects target_objects,
      get_bucket_objects (source_s3 self) (source_bucket self)
      = inr source_objects
      ∧ get_bucket_objects (target_s3 self) (target_bucket self)
        = inr target_objects
      ∧ ∀ cat,
          differences !! cat = None
          ↔ ∀ k, k ∈ all_keys source_objects target_objects →
                 category (spec_outcome self source_objects target_objects k)
                 ≠ Some cat.
Proof.
  unfold compare_buckets.
  destruct (get_bucket_objects (source_s3 self) (source_bucket self))
    as [|source_objects]; [done|].
  destruct (get_bucket_objects (target_s3 self) (target_bucket self))
    as [|target_objects]; [done|].
  intros [= Hr].
  assert (differences = (compare_objects self source_objects target_objects).1)
    as -> by (by rewrite Hr).
  split; [apply report_inhabited|].
  exists source_objects, target_objects. do 2 (split; [done|]).
  intros cat. rewrite inhabited_values_lookup by apply report_inhabited.
  case_decide as He; split; try done.
  - intros _ k Hk Hc. assert (k ∈ (∅ : gset string)); [|set_solver].
    rewrite <- He. by rewrite report_sets.
  - intros Hnone. exfalso. apply He. apply set_eq. intros k.
    rewrite report_sets. split; [|set_solver]. intros [Hk Hc].
    by apply Hnone in Hc.
Qed.

(** * Further properties of the code *)

(** ** [get_bucket_objects]: what a snapshot holds *)

Lemma foldl_store_object_dom objs (objects : gmap string ObjectMeta) :
  dom (foldl store_object objects objs)
  = dom objects ∪ list_to_set (obj_Key <$> objs).
Proof.
  revert objects. induction objs as [|obj objs IH]; intros objects; simpl.
  - set_solver.
  - rewrite IH. unfold store_object. rewrite dom_insert_L. set_solver.
Qed.

Lemma snapshot_of_dom it :
  dom (snapshot_of it) = list_to_set (obj_Key <$> listed it).
Proof.
  unfold snapshot_of. rewrite foldl_store_object_dom, dom_empty_L. set_solver.
Qed.

Lemma get_bucket_objects_inr s3_client bucket_name objects :
  get_bucket_objects s3_client bucket_name = inr objects →
  raised (paginate s3_client 0 bucket_name) = None
  ∧ objects = snapshot_of (paginate s3_client 0 bucket_name).
Proof.
  rewrite get_bucket_objects_spec.
  destruct (raised _); [done|]. by intros [= <-].
Qed.

Lemma foldl_store_object_other objs (objects : gmap string ObjectMeta) k :
  k ∉ obj_Key <$> objs → foldl store_object objects objs !! k = objects !! k.
Proof.
  revert objects. induction objs as [|obj objs IH]; intros objects Hk; [done|].
  rewrite fmap_cons, not_elem_of_cons in Hk. destruct Hk as [Hne Hk].
  simpl. rewrite IH by done. unfold store_object. by rewrite lookup_insert_ne.
Qed.

Lemma foldl_store_object_distinct objs (objects : gmap string ObjectMeta) obj :
  NoDup (obj_Key <$> objs) → obj ∈ objs →
  foldl store_object objects objs !! obj_Key obj = Some (metadata obj).
Proof.
  revert objects. induction objs as [|o objs IH]; intros objects Hnd Hobj.
  { by apply elem_of_nil in Hobj. }
  rewrite fmap_cons in Hnd. apply NoDup_cons in Hnd as [Ho Hnd].
  apply elem_of_cons in Hobj as [->|Hobj]; simpl.
  - rewrite foldl_store_object_other by done.
    unfold store_object. apply lookup_insert_eq.
  - by apply IH.
Qed.

Lemma size_list_to_set_le (l : list string) :
  (size (list_to_set l : gset string) ≤ length l)%nat.
Proof.
  induction l as [|k l IH]; simpl; [done|].
  destruct (decide (k ∈ (list_to_set l : gset string))) as [Hk|Hk].
  - replace ({[k]} ∪ list_to_set l) with (list_to_set l : gset string)
      by set_solver. lia.
  - rewrite size_union by set_solver. rewrite size_singleton. lia.
Qed.

(** X1: the snapshot depends on the sequence of listed objects only, not
    on how the service cuts it into pages: two listings that do not raise
    and list the same objects in the same order give the same snapshot. *)
Theorem snapshot_ignores_page_boundaries client1 bucket1 client2 bucket2 :
  raised (paginate client1 0 bucket1) = None →
  raised (paginate client2 0 bucket2) = None →
  listed (paginate client1 0 bucket1) = listed (paginate client2 0 bucket2) →
  get_bucket_objects client1 bucket1 = get_bucket_objects client2 bucket2.
Proof.
  intros H1 H2 Hl. rewrite !get_bucket_objects_spec, H1, H2.
  unfold snapshot_of. by rewrite Hl.
Qed.

(** X2: the keys of a returned snapshot are exactly the keys listed, so it
    has at most as many entries as objects were listed; when the listed
    keys are distinct it has as many, and every listed object is found
    under its key with its own size, ETag and timestamp. *)
Theorem snapshot_lookup_listed s3_client bucket_name objects :
  get_bucket_objects s3_client bucket_name = inr objects →
  let objs := listed (paginate s3_client 0 bucket_name) in
  dom objects = list_to_set (obj_Key <$> objs)
  ∧ (size objects ≤ length objs)%nat
  ∧ (NoDup (obj_Key <$> objs) →
     size objects = length objs
     ∧ ∀ obj, obj ∈ objs → objects !! obj_Key obj = Some (metadata obj)).
Proof.
  intros [_ ->]%get_bucket_objects_inr objs.
  assert (size (snapshot_of (paginate s3_client 0 bucket_name))
          = size (list_to_set (obj_Key <$> objs) : gset string)) as Hsize.
  { by rewrite <- size_dom, snapshot_of_dom. }
  split; [apply snapshot_of_dom|]. split.
  - rewrite Hsize, <- (length_fmap obj_Key objs). apply size_list_to_set_le.
  - intros Hnd. split.
    + rewrite Hsize, size_list_to_set by done. apply length_fmap.
    + intros obj Hobj. by apply foldl_store_object_distinct.
Qed.

(** ** [_calculate_md5]: what is hashed *)

Lemma read_chunks_delivered chunks tail consumed :
  Forall (λ chunk, chunk ≠ []) chunks →
  read_chunks ((ReadOk <$> chunks) ++ tail)%list consumed
  = read_chunks tail (consumed ++ concat chunks)%list.
Proof.
  intros Hne. revert consumed.
  induction Hne as [|chunk chunks Hchunk _ IH]; intros consumed; simpl.
  - by rewrite app_nil_r.
  - destruct chunk as [|b chunk]; [done|]. rewrite IH. by rewrite app_assoc.
Qed.

Lemma read_chunks_None body consumed :
  read_chunks body consumed = None →
  ∃ chunks e rest,
    body = ((ReadOk <$> chunks) ++ ReadRaise e :: rest)%list
    ∧ Forall (λ chunk, chunk ≠ []) chunks.
Proof.
  revert consumed. induction body as [|answer body IH]; intros consumed; [done|].
  destruct answer as [[|b chunk]|e]; simpl; [done| |].
  - intros (chunks & e & rest & -> & Hne)%IH.
    exists ((b :: chunk) :: chunks), e, rest. split; [done|].
    by constructor.
  - intros _. by exists [], e, body.
Qed.

(** X3: the digest is that of the bytes delivered before the end of the
    stream or before the first empty chunk, whichever comes first; it does
    not depend on how the stream cuts the bytes into chunks, and whatever
    the stream would answer after an empty chunk, an exception included, is
    never read. *)
Theorem digest_of_delivered_bytes s3_client bucket key chunks tail :
  get_object s3_client 0 bucket key = inr ((ReadOk <$> chunks) ++ tail)%list →
  Forall (λ chunk, chunk ≠ []) chunks →
  tail = [] ∨ (∃ rest, tail = ReadOk [] :: rest) →
  _calculate_md5 s3_client bucket key = Some (md5 (concat chunks)).
Proof.
  intros Hget Hne Htail. unfold _calculate_md5. rewrite Hget.
  rewrite read_chunks_delivered by done. simpl.
  by destruct Htail as [->|[rest ->]].
Qed.

(** X4: no digest is returned exactly when the object cannot be opened or
    a read raises before the end of the stream and before any empty
    chunk. *)
Theorem digest_unavailable_iff s3_client bucket key :
  _calculate_md5 s3_client bucket key = None
  ↔ (∃ e, get_object s3_client 0 bucket key = inl e)
    ∨ (∃ chunks e rest,
         get_object s3_client 0 bucket key
         = inr ((ReadOk <$> chunks) ++ ReadRaise e :: rest)%list
         ∧ Forall (λ chunk, chunk ≠ []) chunks).
Proof.
  unfold _calculate_md5.
  destruct (get_object s3_client 0 bucket key) as [e|body]; split.
  - intros _. left. by exists e.
  - done.
  - intros (chunks & e & rest & -> & Hne)%read_chunks_None.
    right. by exists chunks, e, rest.
  - intros [[e [=]]|(chunks & e & rest & [= ->] & Hne)].
    by rewrite read_chunks_delivered.
Qed.

(** ** [_compare_file_hashes]: when two objects compare equal *)

(** X5: [_compare_file_hashes] returns [True] exactly when both digests
    are available and are the same string. *)
Theorem compare_file_hashes_true_iff self key :
  _compare_file_hashes self key = true
  ↔ ∃ digest,
      _calculate_md5 (source_s3 self) (source_bucket self) key = Some digest
      ∧ _calculate_md5 (target_s3 self) (target_bucket self) key = Some digest.
Proof.
  unfold _compare_file_hashes.
  destruct (_calculate_md5 (source_s3 self) (source_bucket self) key)
    as [hs|];
    destruct (_calculate_md5 (target_s3 self) (target_bucket self) key)
      as [ht|];
    repeat case_bool_decide; simplify_eq; simpl; split;
    try done; try (by intros (? & ? & ?)).
  - intros _. by exists ht.
  - intros (digest & ? & ?). congruence.
Qed.

(** X6: two objects whose streams deliver the same bytes compare equal,
    however differently the two streams cut the bytes into chunks and
    whether they end or answer with an empty chunk. *)
Theorem same_bytes_compare_equal
    self key source_chunks source_tail target_chunks target_tail :
  get_object (source_s3 self) 0 (source_bucket self) key
  = inr ((ReadOk <$> source_chunks) ++ source_tail)%list →
  get_object (target_s3 self) 0 (target_bucket self) key
  = inr ((ReadOk <$> target_chunks) ++ target_tail)%list →
  Forall (λ chunk, chunk ≠ []) source_chunks →
  Forall (λ chunk, chunk ≠ []) target_chunks →
  source_tail = [] ∨ (∃ rest, source_tail = ReadOk [] :: rest) →
  target_tail = [] ∨ (∃ rest, target_tail = ReadOk [] :: rest) →
  concat source_chunks = concat target_chunks →
  _compare_file_hashes self key = true.
Proof.
  intros Hs Ht Hsne Htne Hstail Httail Hsame.
  unfold _compare_file_hashes, _calculate_md5. rewrite Hs, Ht.
  rewrite !read_chunks_delivered by done. simpl. rewrite Hsame.
  destruct Hstail as [->|[? ->]], Httail as [->|[? ->]]; simpl;
    repeat case_bool_decide; simplify_eq; done.
Qed.

(** ** [compare_buckets]: what each category holds *)

Lemma category_of_outcome o1 o2 :
  category o1 = category o2 → o1 = o2.
Proof. destruct o1, o2; simpl; congruence. Qed.

Lemma report_category self source target k o :
  o ≠ Matched →
  k ∈ dd_get (compare_objects self source target).1
        (default "" (category o))
  ↔ k ∈ all_keys source target ∧ spec_outcome self source target k = o.
Proof.
  intros Ho. rewrite report_sets.
  assert (Some (default "" (category o)) = category o) as -> by (by destruct o).
  split; intros [Hk Hc]; (split; [done|]).
  - by apply category_of_outcome.
  - by rewrite Hc.
Qed.

(** X7: the three categories decided by the listings alone.
    [missing_in_target] is the set of keys of the source that the target
    lacks, [extra_in_target] the set of keys of the target that the source
    lacks, and [size_mismatch] holds the keys present on both sides with
    different sizes, whatever the flags and the object contents. *)
Theorem listing_categories self source_objects target_objects :
  let differences := (compare_objects self source_objects target_objects).1 in
  dd_get differences "missing_in_target"
  = dom source_objects ∖ dom target_objects
  ∧ dd_get differences "extra_in_target"
    = dom target_objects ∖ dom source_objects
  ∧ ∀ k, k ∈ dd_get differences "size_mismatch"
         ↔ ∃ s t, source_objects !! k = Some s ∧ target_objects !! k = Some t
                  ∧ Size s ≠ Size t.
Proof.
  intros differences. subst differences. split; [|split].
  - apply set_eq. intros k.
    rewrite (report_category _ _ _ _ MissingInTarget) by done.
    rewrite elem_of_all_keys, elem_of_difference, elem_of_dom, not_elem_of_dom.
    unfold spec_outcome.
    destruct (source_objects !! k) as [s|], (target_objects !! k) as [t|];
      repeat case_decide; split; try done; try naive_solver.
  - apply set_eq. intros k.
    rewrite (report_category _ _ _ _ ExtraInTarget) by done.
    rewrite elem_of_all_keys, elem_of_difference, elem_of_dom, not_elem_of_dom.
    unfold spec_outcome.
    destruct (source_objects !! k) as [s|], (target_objects !! k) as [t|];
      repeat case_decide; split; try done; try naive_solver.
  - intros k.
    rewrite (report_category _ _ _ _ SizeMismatch) by done.
    rewrite elem_of_all_keys. unfold spec_outcome.
    destruct (source_objects !! k) as [s|], (target_objects !! k) as [t|];
      repeat case_decide; split; try done; try naive_solver.
Qed.

(** ** [compare_buckets]: what the report depends on *)

Lemma filter_ext_elem_of {A} (P Q : A → Prop)
    `{!∀ x, Decision (P x), !∀ x, Decision (Q x)} (l : list A) :
  (∀ x, x ∈ l → P x ↔ Q x) → filter P l = filter Q l.
Proof.
  induction l as [|x l IH]; intros Hl; [done|].
  rewrite !filter_cons, IH by (intros y Hy; apply Hl; by right).
  assert (P x ↔ Q x) as Hx by (apply Hl; by left).
  repeat case_decide; tauto.
Qed.

Lemma filter_all_elem_of {A} (P : A → Prop) `{!∀ x, Decision (P x)}
    (l : list A) :
  (∀ x, x ∈ l → P x) → filter P l = l.
Proof.
  induction l as [|x l IH]; intros Hl; [done|].
  rewrite filter_cons, decide_True by (apply Hl; by left).
  f_equal. apply IH. intros y Hy. apply Hl. by right.
Qed.

(** Two runs that give every key of the same union the same outcome give
    the same report. *)
Lemma report_ext self self' source target source' target' :
  all_keys source target = all_keys source' target' →
  (∀ k, k ∈ all_keys source target →
        spec_outcome self source target k
        = spec_outcome self' source' target' k) →
  compare_objects self source target = compare_objects self' source' target'.
Proof.
  intros Hkeys Hout.
  apply (injective_projections (compare_objects self source target)
           (compare_objects self' source' target')).
  - apply map_eq. intros cat.
    rewrite !inhabited_values_lookup by apply report_inhabited.
    assert (dd_get (compare_objects self source target).1 cat
            = dd_get (compare_objects self' source' target').1 cat) as ->;
      [|done].
    apply set_eq. intros k. rewrite !report_sets, <- Hkeys.
    split; intros [Hk Hc]; (split; [done|]).
    + by rewrite <- Hout.
    + by rewrite Hout.
  - rewrite !report_stats, <- Hkeys. do 2 f_equal. unfold matched_in.
    apply filter_ext_elem_of. intros k Hk. apply elem_of_elements in Hk.
    by rewrite Hout.
Qed.

Lemma compare_file_hashes_clients self self' key :
  source_s3 self = source_s3 self' → source_bucket self = source_bucket self' →
  target_s3 self = target_s3 self' → target_bucket self = target_bucket self' →
  _compare_file_hashes self key = _compare_file_hashes self' key.
Proof. unfold _compare_file_hashes. by intros -> -> -> ->. Qed.

(** X8: without [compare_hashes] no object body takes part in the
    comparison: there is no entry [content_mismatch], and two comparers
    with the same [ignore_etags] give the same report on the same snapshots,
    whatever their clients would deliver. *)
Theorem no_content_check_without_compare_hashes
    self self' source_objects target_objects :
  compare_hashes self = false → compare_hashes self' = false →
  ignore_etags self = ignore_etags self' →
  (compare_objects self source_objects target_objects).1 !! "content_mismatch"
  = None
  ∧ compare_objects self source_objects target_objects
    = compare_objects self' source_objects target_objects.
Proof.
  intros Hc Hc' Hi. split.
  - rewrite inhabited_values_lookup by apply report_inhabited.
    rewrite decide_True; [done|]. apply set_eq. intros k.
    rewrite (report_category _ _ _ _ ContentMismatch) by done.
    split; [|set_solver]. intros [_ Ho]. exfalso. revert Ho.
    unfold spec_outcome.
    destruct (source_objects !! k), (target_objects !! k); try done.
    repeat case_decide; try done. destruct_and!. congruence.
  - apply report_ext; [done|]. intros k _. unfold spec_outcome.
    destruct (source_objects !! k), (target_objects !! k); try done.
    rewrite Hi, Hc, Hc'. repeat case_decide; try done; naive_solver.
Qed.

(** X9: [LastModified] is stored in the snapshots but never compared: two
    pairs of snapshots that agree on the sizes and ETags of all keys give
    the same report. *)
Theorem last_modified_is_ignored
    self source_objects target_objects source_objects' target_objects' :
  without_last_modified source_objects = without_last_modified source_objects' →
  without_last_modified target_objects = without_last_modified target_objects' →
  compare_objects self source_objects target_objects
  = compare_objects self source_objects' target_objects'.
Proof.
  intros Hs Ht.
  assert (∀ (m m' : gmap string ObjectMeta) k,
            without_last_modified m = without_last_modified m' →
            match m !! k, m' !! k with
            | Some o, Some o' => Size o = Size o' ∧ ETag o = ETag o'
            | None, None => True
            | _, _ => False
            end) as Hlookup.
  { intros m m' k Hm.
    apply (f_equal (λ x : gmap string (Z * string), x !! k)) in Hm.
    unfold without_last_modified in Hm. rewrite !lookup_fmap in Hm.
    destruct (m !! k), (m' !! k); simpl in Hm; try done. by injection Hm. }
  apply report_ext.
  - unfold all_keys.
    rewrite <- !(dom_fmap_L (λ obj, (Size obj, ETag obj))).
    unfold without_last_modified in Hs, Ht. by rewrite Hs, Ht.
  - intros k _. unfold spec_outcome.
    pose proof (Hlookup _ _ k Hs) as Hsk. pose proof (Hlookup _ _ k Ht) as Htk.
    destruct (source_objects !! k) as [s|], (source_objects' !! k) as [s'|];
      try done;
      destruct (target_objects !! k) as [t|], (target_objects' !! k) as [t'|];
      try done.
    destruct Hsk as [-> ->], Htk as [-> ->]. done.
Qed.

Lemma report_dom self source target :
  dom (compare_objects self source target).1 ⊆ difference_categories.
Proof.
  intros cat [keys Hkeys]%elem_of_dom.
  pose proof (report_inhabited _ _ _ _ _ Hkeys) as Hne.
  apply set_choose_L in Hne as [k Hk].
  assert (k ∈ dd_get (compare_objects self source target).1 cat) as Hin
    by (unfold dd_get; by rewrite Hkeys).
  apply report_sets in Hin as [_ Hc]. unfold difference_categories.
  destruct (spec_outcome self source target k);
    simpl in Hc; simplify_eq; set_solver.
Qed.

(** X10: [differences] has no other keys than the five category names, and
    [stats] has exactly the keys [total_files] and [matched_files]. *)
Theorem report_keys self source_objects target_objects :
  dom (compare_objects self source_objects target_objects).1
  ⊆ difference_categories
  ∧ dom (compare_objects self source_objects target_objects).2
    = {[ "total_files"; "matched_files" ]}.
Proof.
  split; [apply report_dom|].
  rewrite report_stats, !dom_insert_L, dom_empty_L. set_solver.
Qed.

(** ** [compare_buckets] and [main]: the counters *)

Lemma diff_total_zero d :
  inhabited_values d → diff_total d = 0 ↔ d = ∅.
Proof.
  intros Hd. split; [|intros ->; apply diff_total_empty].
  intros Hzero. apply map_empty. intros cat.
  destruct (d !! cat) as [keys|] eqn:Hcat; [|done]. exfalso.
  pose proof (Hd _ _ Hcat) as Hne.
  unfold diff_total in Hzero.
  rewrite (map_fold_delete_L _ _ cat keys d) in Hzero; [|intros; lia|done].
  assert (size keys ≠ 0) by (by rewrite size_empty_iff, leibniz_equiv_iff).
  lia.
Qed.

(** X11: [matched_files] never exceeds [total_files], and the two are
    equal exactly when [differences] is the empty dictionary. *)
Theorem matched_at_most_total self source_objects target_objects :
  let report := compare_objects self source_objects target_objects in
  ∃ total matched,
    report.2 !! "total_files" = Some total
    ∧ report.2 !! "matched_files" = Some matched
    ∧ (matched ≤ total)%nat
    ∧ (matched = total ↔ report.1 = ∅).
Proof.
  intros report. subst report.
  pose proof (report_total self source_objects target_objects) as Htotal.
  eexists _, _. rewrite report_stats.
  split; [by rewrite lookup_insert_ne, lookup_insert_eq|].
  split; [apply lookup_insert_eq|]. split; [lia|].
  rewrite <- diff_total_zero by apply report_inhabited. lia.
Qed.

Lemma any_values_inhabited d :
  inhabited_values d → any_values d = false ↔ d = ∅.
Proof.
  intros Hd. rewrite any_values_false. split.
  - intros Hempty. apply map_empty. intros cat.
    rewrite inhabited_values_lookup by done. by rewrite decide_True.
  - intros -> cat. apply dd_get_empty.
Qed.

(** X12: [main] exits with 0 exactly when [compare_buckets] returns and
    its two counters are equal, every key counted as matched. *)
Theorem exit_zero_iff_all_matched self :
  main (inr self) = 0%Z
  ↔ ∃ differences stats n,
      compare_buckets self = inr (differences, stats)
      ∧ stats !! "total_files" = Some n
      ∧ stats !! "matched_files" = Some n.
Proof.
  unfold main, compare_buckets.
  destruct (get_bucket_objects (source_s3 self) (source_bucket self))
    as [e|source_objects]; [split; [done | by intros (? & ? & ? & [=] & _)]|].
  destruct (get_bucket_objects (target_s3 self) (target_bucket self))
    as [e|target_objects]; [split; [done | by intros (? & ? & ? & [=] & _)]|].
  pose proof (report_total self source_objects target_objects) as Htotal.
  pose proof (report_stats self source_objects target_objects) as Hstats.
  pose proof (report_inhabited self source_objects target_objects) as Hinh.
  destruct (compare_objects self source_objects target_objects)
    as [differences stats]. simpl in *.
  pose proof (any_values_inhabited differences Hinh) as Hany.
  destruct (any_values differences) eqn:Ha; simpl; split; try done.
  - intros (d & st & n & [= <- <-] & Ht & Hm). exfalso.
    rewrite Hstats in Ht, Hm.
    rewrite lookup_insert_ne, lookup_insert_eq in Ht by done.
    rewrite lookup_insert_eq in Hm.
    assert (diff_total differences = 0) as Hz by (simplify_eq; lia).
    apply diff_total_zero in Hz; [|done].
    destruct Hany as [_ Hany]. by specialize (Hany Hz).
  - intros _.
    exists differences, stats, (size (all_keys source_objects target_objects)).
    split; [done|]. rewrite Hstats.
    split; [by rewrite lookup_insert_ne, lookup_insert_eq|].
    rewrite lookup_insert_eq. f_equal.
    destruct Hany as [Hany _]. rewrite Hany in Htotal by done.
    rewrite diff_total_empty in Htotal. lia.
Qed.

(** X13: two buckets whose listings give the same snapshot are reported
    identical: [differences] is empty, both counters are the number of
    keys, and [main] exits with 0.  With [compare_hashes] set this needs
    every object to compare equal by digest. *)
Theorem identical_snapshots_match self objects :
  get_bucket_objects (source_s3 self) (source_bucket self) = inr objects →
  get_bucket_objects (target_s3 self) (target_bucket self) = inr objects →
  (compare_hashes self = true →
   ∀ k, k ∈ dom objects → _compare_file_hashes self k = true) →
  compare_buckets self
  = inr (∅, <["matched_files" := size objects]>
              (<["total_files" := size objects]> ∅))
  ∧ main (inr self) = 0%Z.
Proof.
  intros Hs Ht Hhash.
  assert (all_keys objects objects = dom objects) as Hunion
    by (unfold all_keys; set_solver).
  assert (∀ k, k ∈ dom objects → spec_outcome self objects objects k = Matched)
    as Hall.
  { intros k [o Ho]%elem_of_dom. unfold spec_outcome. rewrite Ho.
    rewrite decide_False by (intros Hne; by apply Hne).
    rewrite decide_False by (intros [_ Hne]; by apply Hne).
    case_decide as Hc; [|done]. destruct Hc as [Hc Hf].
    rewrite Hhash in Hf; [done | done | by apply elem_of_dom]. }
  assert (compare_objects self objects objects
          = (∅, <["matched_files" := size objects]>
                  (<["total_files" := size objects]> ∅))) as Hreport.
  { apply (injective_projections (compare_objects self objects objects)).
    - simpl. apply map_empty. intros cat.
      rewrite inhabited_values_lookup by apply report_inhabited.
      rewrite decide_True; [done|]. apply set_eq. intros k.
      rewrite report_sets, Hunion. split; [|set_solver].
      intros [Hk Hc]. by rewrite Hall in Hc.
    - simpl. rewrite report_stats, Hunion, size_dom. do 2 f_equal.
      unfold matched_in.
      rewrite filter_all_elem_of.
      + change (size (dom objects : gset string) = size objects).
        apply size_dom.
      + intros k Hk. apply elem_of_elements in Hk. by apply Hall. }
  unfold main. rewrite (compare_buckets_listed _ _ _ Hs Ht), Hreport.
  split; [done|]. by vm_compute.
Qed.

(** ** [compare_buckets]: what the two flags change *)

Lemma compare_file_hashes_with_flags self ignore hashes key :
  _compare_file_hashes (with_flags self ignore hashes) key
  = _compare_file_hashes self key.
Proof. by apply compare_file_hashes_clients. Qed.

Lemma spec_outcome_hashes_off self source target ignore k :
  spec_outcome (with_flags self ignore true) source target k
  = if decide (spec_outcome (with_flags self ignore false) source target k
               = Matched
               ∧ _compare_file_hashes self k = false)
    then ContentMismatch
    else spec_outcome (with_flags self ignore false) source target k.
Proof.
  unfold spec_outcome. rewrite !compare_file_hashes_with_flags.
  cbn [compare_hashes ignore_etags with_flags].
  destruct (source !! k) as [s|], (target !! k) as [t|];
    try (rewrite decide_False by (by intros [[=] _]); done).
  destruct (decide (Size s ≠ Size t));
    [rewrite decide_False by (by intros [[=] _]); done|].
  destruct (decide (ignore = false ∧ ETag s ≠ ETag t));
    [rewrite decide_False by (by intros [[=] _]); done|].
  rewrite (decide_False (P := false = true ∧ _)) by (by intros [[=] _]).
  destruct (_compare_file_hashes self k).
  - rewrite !decide_False by (by intros [_ [=]]). done.
  - by rewrite !decide_True.
Qed.

Lemma spec_outcome_ignore_off self source target hashes k :
  let off := spec_outcome (with_flags self false hashes) source target k in
  let on := spec_outcome (with_flags self true hashes) source target k in
  (off ≠ IntegrityTagMismatch → on = off)
  ∧ (off = IntegrityTagMismatch → on = Matched ∨ on = ContentMismatch).
Proof.
  unfold spec_outcome. rewrite !compare_file_hashes_with_flags.
  cbn [compare_hashes ignore_etags with_flags].
  destruct (source !! k) as [s|], (target !! k) as [t|]; try (by split).
  destruct (decide (Size s ≠ Size t)); [by split|].
  rewrite (decide_False (P := true = false ∧ _)) by (by intros [[=] _]).
  destruct (decide (false = false ∧ ETag s ≠ ETag t));
    [|split; [done|]; by case_decide].
  split; [done|]. intros _. case_decide; auto.
Qed.

Lemma length_filter_mono {A} (P Q : A → Prop)
    `{!∀ x, Decision (P x), !∀ x, Decision (Q x)} (l : list A) :
  (∀ x, x ∈ l → P x → Q x) →
  (length (filter P l) ≤ length (filter Q l))%nat.
Proof.
  induction l as [|x l IH]; intros Hl; [done|].
  rewrite !filter_cons.
  assert (length (filter P l) ≤ length (filter Q l))%nat
    by (apply IH; intros y Hy; apply Hl; by right).
  assert (P x → Q x) by (apply Hl; by left).
  repeat case_decide; simpl; (lia || tauto).
Qed.

Lemma length_filter_split {A} (P Q R : A → Prop)
    `{!∀ x, Decision (P x), !∀ x, Decision (Q x), !∀ x, Decision (R x)}
    (l : list A) :
  (∀ x, x ∈ l → Q x ↔ (P x ∨ R x)) → (∀ x, x ∈ l → ¬ (P x ∧ R x)) →
  length (filter Q l) = length (filter P l) + length (filter R l).
Proof.
  induction l as [|x l IH]; intros Hl Hex; [done|].
  rewrite !filter_cons.
  assert (length (filter Q l) = length (filter P l) + length (filter R l))
    by (apply IH; intros y Hy; [apply Hl | apply Hex]; by right).
  assert (Q x ↔ (P x ∨ R x)) by (apply Hl; by left).
  assert (¬ (P x ∧ R x)) by (apply Hex; by left).
  repeat case_decide; simpl; (lia || tauto).
Qed.

Lemma report_set_size self source target o :
  o ≠ Matched →
  size (dd_get (compare_objects self source target).1 (default "" (category o)))
  = length (filter (λ k, spec_outcome self source target k = o)
              (elements (all_keys source target))).
Proof.
  intros Ho. rewrite <- (size_list_to_set (C := gset string)).
  - f_equal. apply set_eq. intros k.
    rewrite report_category by done.
    rewrite elem_of_list_to_set, list_elem_of_filter, elem_of_elements. tauto.
  - apply NoDup_filter, NoDup_elements.
Qed.

(** X14: setting [compare_hashes] only moves keys from matched to
    [content_mismatch].  Every other entry of [differences] is the same
    with and without the flag, the keys of [content_mismatch] are keys that
    are in no set without the flag, and [matched_files] drops by the size of
    [content_mismatch]. *)
Theorem compare_hashes_only_moves_matches
    self source_objects target_objects ignore :
  let off := compare_objects (with_flags self ignore false)
               source_objects target_objects in
  let on := compare_objects (with_flags self ignore true)
              source_objects target_objects in
  (∀ cat, cat ≠ "content_mismatch" → on.1 !! cat = off.1 !! cat)
  ∧ (∀ k, k ∈ dd_get on.1 "content_mismatch" → ∀ cat, k ∉ dd_get off.1 cat)
  ∧ ∃ matched_on matched_off,
      on.2 !! "matched_files" = Some matched_on
      ∧ off.2 !! "matched_files" = Some matched_off
      ∧ matched_on + size (dd_get on.1 "content_mismatch") = matched_off.
Proof.
  intros off on. subst off on. split; [|split].
  - intros cat Hcat. rewrite !inhabited_values_lookup by apply report_inhabited.
    match goal with
    | |- (if decide (?X = ∅) then _ else _) = (if decide (?Y = ∅) then _ else _) =>
        assert (X = Y) as ->; [|done]
    end.
    apply set_eq. intros k. rewrite !report_sets, spec_outcome_hashes_off.
    case_decide as Hd; [|done]. destruct Hd as [Hm _]. rewrite Hm. simpl.
    split; intros [_ [=]]. congruence.
  - intros k Hk cat. rewrite report_sets. intros [_ Hc].
    apply (report_category _ _ _ _ ContentMismatch) in Hk as [_ Hk]; [|done].
    rewrite spec_outcome_hashes_off in Hk.
    case_decide as Hd.
    + destruct Hd as [Hm _]. by rewrite Hm in Hc.
    + exfalso. revert Hk. unfold spec_outcome.
      cbn [compare_hashes ignore_etags with_flags].
      destruct (source_objects !! k), (target_objects !! k); try done.
      repeat case_decide; try done. destruct_and!. done.
  - eexists _, _. rewrite !report_stats, !lookup_insert_eq.
    split; [done|]. split; [done|].
    rewrite (report_set_size _ _ _ ContentMismatch) by done.
    unfold matched_in. symmetry. apply length_filter_split.
    + intros k _. rewrite !spec_outcome_hashes_off.
      case_decide as Hd; [naive_solver|].
      split; [by left|]. intros [Hm|Hc]; [done|].
      exfalso. revert Hc. unfold spec_outcome.
      cbn [compare_hashes ignore_etags with_flags].
      destruct (source_objects !! k), (target_objects !! k); try done.
      repeat case_decide; try done. destruct_and!. done.
    + intros k _ [Hm Hc]. congruence.
Qed.

(** X15: setting [ignore_etags] only moves the keys of [etag_mismatch].
    A key outside that set is in the same sets with and without the flag; a
    key of that set is, with the flag, in [content_mismatch] or in no set;
    and [matched_files] grows by at most the size of [etag_mismatch]. *)
Theorem ignore_etags_only_moves_tag_mismatches
    self source_objects target_objects hashes :
  let off := compare_objects (with_flags self false hashes)
               source_objects target_objects in
  let on := compare_objects (with_flags self true hashes)
              source_objects target_objects in
  (∀ k cat, k ∉ dd_get off.1 "etag_mismatch" →
            k ∈ dd_get on.1 cat ↔ k ∈ dd_get off.1 cat)
  ∧ (∀ k cat, k ∈ dd_get off.1 "etag_mismatch" →
              k ∈ dd_get on.1 cat → cat = "content_mismatch")
  ∧ ∃ matched_on matched_off,
      on.2 !! "matched_files" = Some matched_on
      ∧ off.2 !! "matched_files" = Some matched_off
      ∧ (matched_off ≤ matched_on)%nat
      ∧ (matched_on ≤ matched_off + size (dd_get off.1 "etag_mismatch"))%nat.
Proof.
  intros off on. subst off on. split; [|split].
  - intros k cat Hk. rewrite !report_sets.
    destruct (decide (k ∈ all_keys source_objects target_objects)) as [Hin|Hin];
      [|tauto].
    destruct (spec_outcome_ignore_off self source_objects target_objects
                hashes k) as [Hsame _].
    rewrite Hsame; [done|]. intros Htag. apply Hk.
    by apply (report_category _ _ _ _ IntegrityTagMismatch).
  - intros k cat Hk. rewrite report_sets. intros [_ Hc].
    apply (report_category _ _ _ _ IntegrityTagMismatch) in Hk as [_ Hk];
      [|done].
    destruct (spec_outcome_ignore_off self source_objects target_objects
                hashes k) as [_ Hmoved].
    destruct (Hmoved Hk) as [Hon|Hon]; rewrite Hon in Hc; simpl in Hc;
      congruence.
  - eexists _, _. rewrite !report_stats, !lookup_insert_eq.
    split; [done|]. split; [done|].
    rewrite (report_set_size _ _ _ IntegrityTagMismatch) by done.
    unfold matched_in. split.
    + apply length_filter_mono. intros k _ Hm.
      destruct (spec_outcome_ignore_off self source_objects target_objects
                  hashes k) as [Hsame _].
      rewrite Hsame; [done|]. by rewrite Hm.
    + set (l := elements (all_keys source_objects target_objects)).
      set (off := spec_outcome (with_flags self false hashes)
                    source_objects target_objects).
      set (on := spec_outcome (with_flags self true hashes)
                   source_objects target_objects).
      assert (length (filter (λ k, on k = Matched) l)
              ≤ length (filter (λ k, off k = Matched
                                     ∨ off k = IntegrityTagMismatch) l))%nat
        as Hle.
      { apply length_filter_mono. intros k _ Hm.
        destruct (spec_outcome_ignore_off self source_objects target_objects
                    hashes k) as [Hsame _].
        destruct (decide (off k = IntegrityTagMismatch)) as [|Hne];
          [by right|].
        left. fold (off k) (on k) in Hsame. by rewrite <- Hsame. }
      pose proof (length_filter_split (λ k, off k = Matched)
                    (λ k, off k = Matched ∨ off k = IntegrityTagMismatch)
                    (λ k, off k = IntegrityTagMismatch) l) as Hsplit.
      rewrite Hsplit in Hle; [exact Hle | done |].
      intros k _ [Hm Ht]. congruence.
Qed.

(** ** The listing of differences logged by [main] *)

Lemma compare_not_Gt_trans a b c :
  String.compare a b ≠ Gt → String.compare b c ≠ Gt → String.compare a c ≠ Gt.
Proof.
  revert b c. induction a as [|x a IH]; intros [|y b] [|z c]; simpl; try done.
  unfold Ascii.compare.
  destruct (N.compare_spec (N_of_ascii x) (N_of_ascii y)) as [Hxy|Hxy|Hxy];
    destruct (N.compare_spec (N_of_ascii y) (N_of_ascii z)) as [Hyz|Hyz|Hyz];
    destruct (N.compare_spec (N_of_ascii x) (N_of_ascii z)) as [Hxz|Hxz|Hxz];
    try done; try lia.
  apply IH.
Qed.

#[global] Instance key_le_total : Total key_le.
Proof. intros a b. apply String.leb_total. Qed.

#[global] Instance key_le_antisym : AntiSymm (=) key_le.
Proof. intros a b. apply String.leb_antisym. Qed.

#[global] Instance key_le_trans : Transitive key_le.
Proof.
  intros a b c. unfold key_le, String.leb. intros Hab Hbc.
  pose proof (compare_not_Gt_trans a b c) as Htrans.
  destruct (String.compare a b), (String.compare b c), (String.compare a c);
    try done; exfalso; by apply Htrans.
Qed.

Lemma sorted_Permutation keys : sorted keys ≡ₚ elements keys.
Proof. apply merge_sort_Permutation. Qed.

Lemma elem_of_sorted keys k : k ∈ sorted keys ↔ k ∈ keys.
Proof. by rewrite sorted_Permutation, elem_of_elements. Qed.

(** X16: [sorted(keys)] lists every key of the set once, in ascending
    order of [str], and it is the only list that does. *)
Theorem sorted_lists_keys_ascending (keys : gset string) :
  Sorted key_le (sorted keys)
  ∧ NoDup (sorted keys)
  ∧ (∀ k, k ∈ sorted keys ↔ k ∈ keys)
  ∧ ∀ l, Sorted key_le l → NoDup l → (∀ k, k ∈ l ↔ k ∈ keys) →
         l = sorted keys.
Proof.
  split; [apply Sorted_merge_sort, _|].
  split; [rewrite sorted_Permutation; apply NoDup_elements|].
  split; [apply elem_of_sorted|].
  intros l Hl Hnd Hel. apply (Sorted_unique key_le); [done| |].
  - apply Sorted_merge_sort, _.
  - rewrite sorted_Permutation.
    apply NoDup_Permutation; [done | apply NoDup_elements |].
    intros k. by rewrite Hel, elem_of_elements.
Qed.





(** X18: the header logged for an entry of a report of [compare_buckets]
    is the category name with spaces for underscores and every word
    capitalised, followed by a colon: [extra_in_target] gives
    ["Extra In Target:"], [missing_in_target] ["Missing In Target:"],
    [size_mismatch] ["Size Mismatch:"], [etag_mismatch] ["Etag Mismatch:"]
    and [content_mismatch] ["Content Mismatch:"], each after a newline. *)
Theorem listing_headers self source_objects target_objects cat keys :
  (compare_objects self source_objects target_objects).1 !! cat = Some keys →
  ∃ header,
    (cat, header) ∈ [ ("extra_in_target", "Extra In Target");
                      ("missing_in_target", "Missing In Target");
                      ("size_mismatch", "Size Mismatch");
                      ("etag_mismatch", "Etag Mismatch");
                      ("content_mismatch", "Content Mismatch") ]
    ∧ head (render_item (cat, keys)) = Some (String "010" (header ++ ":")).
Proof.
  intros Hcat. exists (title (replace_underscore cat)). split.
  - assert (cat ∈ difference_categories) as Hin
      by (eapply report_dom, elem_of_dom; eauto).
    unfold difference_categories in Hin.
    rewrite !elem_of_union, !elem_of_singleton in Hin.
    destruct Hin as [[[[-> | ->] | ->] | ->] | ->]; vm_compute;
      repeat (first [by left | right]).
  - unfold render_item. simpl.
    by rewrite bool_decide_eq_false_2 by (by eapply report_inhabited).
Qed.

End Comparer.

(** * The definitions at work on concrete buckets *)

Example scenario_A :
  compare_buckets plain_digest (readable_both false false)
  = inr ({[ "missing_in_target" := {[ "b" ]}; "extra_in_target" := {[ "c" ]} ]},
         {[ "total_files" := 3; "matched_files" := 1 ]}).
Proof. compute_done. Qed.

Example scenario_C_ignored :
  compare_objects plain_digest (readable_both true false)
    retagged_source retagged_target
  = (∅, {[ "total_files" := 1; "matched_files" := 1 ]}).
Proof. compute_done. Qed.

Example scenario_C_compared :
  compare_objects plain_digest (readable_both false false)
    retagged_source retagged_target
  = ({[ "etag_mismatch" := {[ "a" ]} ]},
     {[ "total_files" := 1; "matched_files" := 0 ]}).
Proof. compute_done. Qed.

Example chunked_digest :
  _calculate_md5 plain_digest healthy_source "src" "a"
  = _calculate_md5 plain_digest healthy_target "dst" "a".
Proof. reflexivity. Qed.

Example empty_buckets_identical :
  main plain_digest (inr (comparer_of empty_bucket empty_bucket false true)) = 0%Z.
Proof. compute_done. Qed.

Example differences_exit_1 :
  main plain_digest (inr (readable_both false false)) = 1%Z.
Proof. compute_done. Qed.

(** * The theorems at concrete inputs *)

(** A source body that breaks off: the key ["a"] is filed under
    [content_mismatch]. *)
Lemma unverifiable_key_is_content_mismatch_witness :
  _calculate_md5 plain_digest broken_reads "src" "a" = None
  ∧ _compare_file_hashes plain_digest unreadable_source "a" = false
  ∧ ∃ differences stats,
      compare_buckets plain_digest unreadable_source = inr (differences, stats)
      ∧ "a" ∈ dd_get differences "content_mismatch".
Proof.
  assert (_calculate_md5 plain_digest broken_reads "src" "a" = None) as Hfail
    by reflexivity.
  split; [exact Hfail|].
  destruct (unverifiable_key_is_content_mismatch plain_digest unreadable_source
              (snapshot_of source_listing) (snapshot_of target_listing) "a"
              (metadata (object "a" 10 "x")) (metadata (object "a" 10 "x")))
    as (Hh & differences & stats & Hrun & Hin & _).
  - vm_compute. reflexivity.
  - vm_compute. reflexivity.
  - reflexivity.
  - vm_compute. reflexivity.
  - vm_compute. reflexivity.
  - reflexivity.
  - right. reflexivity.
  - left. exact Hfail.
  - split; [exact Hh|]. exists differences, stats. split; [exact Hrun|exact Hin].
Defined.

(** C1 as written does not hold: on the same buckets the unverifiable key
    is in a set of [differences]. *)
Lemma unverifiable_key_counterexample :
  ¬ (∀ (md5 : bytes → string) self source_objects target_objects key s t,
       get_bucket_objects (source_s3 self) (source_bucket self)
       = inr source_objects →
       get_bucket_objects (target_s3 self) (target_bucket self)
       = inr target_objects →
       compare_hashes self = true →
       source_objects !! key = Some s → target_objects !! key = Some t →
       Size s = Size t →
       ignore_etags self = true ∨ ETag s = ETag t →
       _calculate_md5 md5 (source_s3 self) (source_bucket self) key = None
       ∨ _calculate_md5 md5 (target_s3 self) (target_bucket self) key = None →
       ∃ differences stats,
         compare_buckets md5 self = inr (differences, stats)
         ∧ (key ∉ matched_in md5 self source_objects target_objects
                    (elements (all_keys source_objects target_objects)))
         ∧ ∀ cat, key ∉ dd_get differences cat).
Proof.
  intros Hclaim.
  destruct (Hclaim plain_digest unreadable_source
              (snapshot_of source_listing) (snapshot_of target_listing) "a"
              (metadata (object "a" 10 "x")) (metadata (object "a" 10 "x")))
    as (differences & stats & Hrun & _ & Hnone).
  - vm_compute. reflexivity.
  - vm_compute. reflexivity.
  - reflexivity.
  - vm_compute. reflexivity.
  - vm_compute. reflexivity.
  - reflexivity.
  - right. reflexivity.
  - left. reflexivity.
  - apply (Hnone "content_mismatch").
    rewrite (compare_buckets_listed plain_digest unreadable_source
               (snapshot_of source_listing) (snapshot_of target_listing))
      in Hrun by (vm_compute; reflexivity).
    assert (differences
            = (compare_objects plain_digest unreadable_source
                 (snapshot_of source_listing) (snapshot_of target_listing)).1)
      as ->.
    { injection Hrun as Hdiff _. symmetry. exact Hdiff. }
    vm_compute. reflexivity.
Qed.

Lemma both_hashes_unavailable_witness :
  _calculate_md5 plain_digest broken_reads "src" "a" = None
  ∧ _calculate_md5 plain_digest no_access "dst" "a" = None
  ∧ _compare_file_hashes plain_digest unreadable_both "a" = false.
Proof.
  split; [reflexivity|]. split; [reflexivity|].
  apply (both_hashes_unavailable plain_digest unreadable_both "a");
    reflexivity.
Defined.

(** The source body of ["a"] breaks off, so the verifier fails; the key is
    filed under [content_mismatch]. *)
Lemma decision_order_unless_verified_equal_witness :
  "a" ∈ dom (snapshot_of source_listing) ∪ dom (snapshot_of target_listing)
  ∧ verify_equal plain_digest unreadable_source "a" = VerificationError
  ∧ assigned (compare_objects plain_digest unreadable_source
                (snapshot_of source_listing) (snapshot_of target_listing)).1
      "a" ContentMismatch.
Proof.
  assert ("a" ∈ dom (snapshot_of source_listing)
                ∪ dom (snapshot_of target_listing)) as Hk
    by (vm_compute; reflexivity).
  split; [exact Hk|]. split; [reflexivity|].
  apply (decision_order_unless_verified_equal plain_digest unreadable_source
           (snapshot_of source_listing) (snapshot_of target_listing) "a" Hk).
Defined.

(** C3 as written does not hold: on the same buckets the verifier reports
    no inequality for ["a"], the order as written leaves the key matched,
    and the key is in [content_mismatch]. *)
Lemma decision_order_counterexample :
  ¬ (∀ (md5 : bytes → string) self source_objects target_objects k,
       k ∈ dom source_objects ∪ dom target_objects →
       assigned (compare_objects md5 self source_objects target_objects).1 k
         (stated_outcome md5 self source_objects target_objects k)).
Proof.
  intros Hclaim.
  assert ("a" ∈ dom (snapshot_of source_listing)
                ∪ dom (snapshot_of target_listing)) as Hk
    by (vm_compute; reflexivity).
  pose proof (Hclaim plain_digest unreadable_source
                (snapshot_of source_listing) (snapshot_of target_listing)
                "a" Hk) as Hassigned.
  assert (stated_outcome plain_digest unreadable_source
            (snapshot_of source_listing) (snapshot_of target_listing) "a"
          = Matched) as Hstated by (vm_compute; reflexivity).
  rewrite Hstated in Hassigned.
  apply (Hassigned "content_mismatch").
  vm_compute. reflexivity.
Qed.

Lemma swap_symmetry_witness :
  "b" ∈ all_keys (snapshot_of source_listing) (snapshot_of target_listing)
  ∧ (compare_objects plain_digest (swap_comparer (readable_both false true))
       (snapshot_of target_listing) (snapshot_of source_listing)).1
      !! "extra_in_target"
    = (compare_objects plain_digest (readable_both false true)
         (snapshot_of source_listing) (snapshot_of target_listing)).1
        !! "missing_in_target".
Proof.
  assert ("b" ∈ all_keys (snapshot_of source_listing)
                  (snapshot_of target_listing)) as Hk
    by (vm_compute; reflexivity).
  split; [exact Hk|].
  apply (swap_symmetry plain_digest (readable_both false true)
           (snapshot_of source_listing) (snapshot_of target_listing) "b" Hk).
Defined.

Lemma listing_failure_is_fatal_witness :
  raised (paginate broken_listing 0 "src") = Some "ExpiredToken"
  ∧ raised (paginate broken_listing 1 "src") = None
  ∧ get_bucket_objects broken_listing "src" = inl "ExpiredToken"
  ∧ compare_buckets plain_digest
      (comparer_of broken_listing healthy_target false false)
    = inl "ExpiredToken"
  ∧ main plain_digest (inr (comparer_of broken_listing healthy_target false false))
    = 1%Z.
Proof.
  destruct (listing_failure_is_fatal plain_digest
              (comparer_of broken_listing healthy_target false false))
    as (_ & Hlist & Hrun & _).
  split; [reflexivity|]. split; [reflexivity|]. split.
  - apply Hlist. reflexivity.
  - apply Hrun. reflexivity.
Defined.

Lemma ignore_etags_skips_tag_check_witness :
  ignore_etags (readable_both true false) = true
  ∧ (compare_objects plain_digest (readable_both true false)
       retagged_source retagged_target).1 !! "etag_mismatch" = None
  ∧ assigned (compare_objects plain_digest (readable_both true false)
                retagged_source retagged_target).1 "a" Matched.
Proof.
  destruct (ignore_etags_skips_tag_check plain_digest (readable_both true false)
              retagged_source retagged_target eq_refl) as (Hnone & _ & Hkey).
  split; [reflexivity|]. split; [exact Hnone|].
  apply (Hkey "a" {| Size := 10; ETag := "x"; LastModified := 0 |}
                  {| Size := 10; ETag := "y"; LastModified := 7 |});
    reflexivity.
Defined.

Lemma no_empty_category_witness :
  compare_buckets plain_digest (readable_both false true)
  = inr (compare_objects plain_digest (readable_both false true)
           (snapshot_of source_listing) (snapshot_of target_listing))
  ∧ ∀ cat keys,
      (compare_objects plain_digest (readable_both false true)
         (snapshot_of source_listing) (snapshot_of target_listing)).1 !! cat
      = Some keys → keys ≠ ∅.
Proof.
  assert (compare_buckets plain_digest (readable_both false true)
          = inr (compare_objects plain_digest (readable_both false true)
                   (snapshot_of source_listing) (snapshot_of target_listing)))
    as Hrun by (apply compare_buckets_listed; vm_compute; reflexivity).
  split; [exact Hrun|].
  rewrite (surjective_pairing (compare_objects _ _ _ _)) in Hrun.
  apply (no_empty_category plain_digest _ _ _ Hrun).
Defined.

Lemma pages_without_contents_are_skipped_witness :
  raised (paginate empty_bucket 0 "src") = None
  ∧ Forall (λ page, Contents page = None) (pages (paginate empty_bucket 0 "src"))
  ∧ get_bucket_objects empty_bucket "src" = inr ∅.
Proof.
  assert (Forall (λ page, Contents page = None)
            (pages (paginate empty_bucket 0 "src"))) as Hpages
    by (repeat constructor).
  split; [reflexivity|]. split; [exact Hpages|].
  apply (pages_without_contents_are_skipped empty_bucket "src");
    [reflexivity | exact Hpages].
Defined.

(** * The further properties at concrete inputs *)

Lemma snapshot_ignores_page_boundaries_witness :
  listed (paginate healthy_source 0 "src")
  = listed (paginate single_page_source 0 "src")
  ∧ get_bucket_objects healthy_source "src"
    = get_bucket_objects single_page_source "src".
Proof.
  split; [reflexivity|].
  apply (snapshot_ignores_page_boundaries healthy_source "src"
           single_page_source "src"); reflexivity.
Defined.

Lemma snapshot_lookup_listed_witness :
  get_bucket_objects healthy_source "src" = inr (snapshot_of source_listing)
  ∧ (NoDup (obj_Key <$> listed (paginate healthy_source 0 "src")) →
     size (snapshot_of source_listing) = 2
     ∧ ∀ obj, obj ∈ listed (paginate healthy_source 0 "src") →
              snapshot_of source_listing !! obj_Key obj = Some (metadata obj)).
Proof.
  assert (get_bucket_objects healthy_source "src"
          = inr (snapshot_of source_listing)) as Hget
    by (vm_compute; reflexivity).
  split; [exact Hget|].
  apply (snapshot_lookup_listed healthy_source "src" _ Hget).
Defined.

Lemma digest_of_delivered_bytes_witness :
  _calculate_md5 plain_digest healthy_target "dst" "a"
  = Some (plain_digest [Byte.x68; Byte.x69]).
Proof.
  apply (digest_of_delivered_bytes plain_digest healthy_target "dst" "a"
           [[Byte.x68]; [Byte.x69]] [ReadOk []]).
  - reflexivity.
  - repeat constructor; discriminate.
  - right. exists []. reflexivity.
Defined.

Lemma same_bytes_compare_equal_witness :
  _compare_file_hashes plain_digest (readable_both false true) "a" = true.
Proof.
  apply (same_bytes_compare_equal plain_digest (readable_both false true) "a"
           [[Byte.x68; Byte.x69]] [] [[Byte.x68]; [Byte.x69]] [ReadOk []]).
  - reflexivity.
  - reflexivity.
  - repeat constructor; discriminate.
  - repeat constructor; discriminate.
  - left. reflexivity.
  - right. exists []. reflexivity.
  - reflexivity.
Defined.

Lemma no_content_check_without_compare_hashes_witness :
  (compare_objects plain_digest (readable_both false false)
     (snapshot_of source_listing) (snapshot_of target_listing)).1
    !! "content_mismatch" = None
  ∧ compare_objects plain_digest (readable_both false false)
      (snapshot_of source_listing) (snapshot_of target_listing)
    = compare_objects plain_digest (comparer_of no_access broken_reads false false)
        (snapshot_of source_listing) (snapshot_of target_listing).
Proof.
  apply (no_content_check_without_compare_hashes plain_digest
           (readable_both false false)
           (comparer_of no_access broken_reads false false));
    reflexivity.
Defined.

Lemma last_modified_is_ignored_witness :
  retagged_source ≠ retagged_source_later
  ∧ compare_objects plain_digest (readable_both false false)
      retagged_source retagged_target
    = compare_objects plain_digest (readable_both false false)
        retagged_source_later retagged_target.
Proof.
  split.
  - intros Heq.
    apply (f_equal (λ m : gmap string ObjectMeta, LastModified <$> m !! "a"))
      in Heq.
    vm_compute in Heq. discriminate Heq.
  - apply (last_modified_is_ignored plain_digest (readable_both false false)
             retagged_source retagged_target
             retagged_source_later retagged_target).
    + vm_compute. reflexivity.
    + reflexivity.
Defined.

Lemma identical_snapshots_match_witness :
  compare_buckets plain_digest
    (comparer_of healthy_source single_page_source false true)
  = inr (∅, <["matched_files" := size (snapshot_of source_listing)]>
              (<["total_files" := size (snapshot_of source_listing)]> ∅))
  ∧ main plain_digest
      (inr (comparer_of healthy_source single_page_source false true))
    = 0%Z.
Proof.
  apply (identical_snapshots_match plain_digest
           (comparer_of healthy_source single_page_source false true)
           (snapshot_of source_listing)).
  - vm_compute. reflexivity.
  - vm_compute. reflexivity.
  - intros _ k _. vm_compute. reflexivity.
Defined.


Lemma listing_headers_witness :
  (compare_objects plain_digest (readable_both false false)
     (snapshot_of source_listing) (snapshot_of target_listing)).1
    !! "missing_in_target" = Some {[ "b" ]}
  ∧ ∃ header,
      (("missing_in_target", header) : string * string)
      ∈ [ ("extra_in_target", "Extra In Target");
          ("missing_in_target", "Missing In Target");
          ("size_mismatch", "Size Mismatch");
          ("etag_mismatch", "Etag Mismatch");
          ("content_mismatch", "Content Mismatch") ]
      ∧ head (render_item ("missing_in_target", {[ "b" ]}))
        = Some (String "010" (header ++ ":")).
Proof.
  assert ((compare_objects plain_digest (readable_both false false)
             (snapshot_of source_listing) (snapshot_of target_listing)).1
            !! "missing_in_target" = Some {[ "b" ]}) as Hcat
    by compute_done.
  split; [exact Hcat|].
  apply (listing_headers plain_digest _ _ _ _ _ Hcat).
Defined.

Lemma iteration_order_irrelevant_witness :
  compare_objects_in plain_digest [ "c"; "a"; "b" ] (readable_both false false)
    (snapshot_of source_listing) (snapshot_of target_listing)
  = compare_objects plain_digest (readable_both false false)
      (snapshot_of source_listing) (snapshot_of target_listing).
Proof.
  assert (all_keys (snapshot_of source_listing) (snapshot_of target_listing)
          = {[ "a"; "b"; "c" ]}) as Hunion by compute_done.
  apply (iteration_order_irrelevant plain_digest (readable_both false false)
           (snapshot_of source_listing) (snapshot_of target_listing)
           [ "c"; "a"; "b" ]).
  - repeat constructor; rewrite ?elem_of_cons, ?elem_of_nil;
      intros Hin; repeat destruct Hin as [Hin|Hin]; done.
  - intros k. rewrite Hunion, !elem_of_cons, elem_of_nil,
      !elem_of_union, !elem_of_singleton. tauto.
Defined.
